(** * musicGame: the rhythm-game core of [src/app/page.tsx]

    A shallow embedding of the scheduling and judgment engine of the
    key-mode / difficulty variant of [RhythmGame] (notes with [startTime]
    and [currentY], thresholds 40 / 80), together with the parts of the
    first variant (notes with [time] and [y], thresholds 50 / 100) that
    differ from it.

    JavaScript numbers that hold times and pixel positions are modelled as
    exact rationals [Q]; counters (score, combo, ...) are integers [Z];
    lanes and note ids are [nat].  React state is one record; every event
    handler is a function on that record that applies the handler's queued
    state updaters in the order the handler issues them.  A handler runs on
    the state that the previous event left: the render is committed, and
    the handlers and the frame callback are re-created from it, before the
    next event arrives. *)

From Stdlib Require Import ZArith QArith Qabs Qround Lqa Lia List Bool String Sorted.
From stdpp Require Import base gmap sets strings.
Import ListNotations.

Local Open Scope Z_scope.

(** ** Rational comparisons as booleans *)

Definition Qltb (x y : Q) : bool := negb (Qle_bool y x).

(** ** Data model *)

Record Note : Type := mkNote {
  id : nat;
  lane : nat;
  startTime : Q;
  currentY : Q;
  hit : bool
}.

Record GameStats : Type := mkStats {
  score : Z;
  combo : Z;
  maxCombo : Z;
  perfect : Z;
  good : Z;
  miss : Z
}.

Inductive GameState : Type := menu | playing | paused | ended.

Inductive KeyMode : Type := Key4 | Key6 | Key8.

Inductive Difficulty : Type := easy | normal | hard.

Record JudgmentLabel : Type := mkLabel {
  text : string;
  color : string
}.

#[global] Instance GameState_eq_dec : EqDecision GameState.
Proof. solve_decision. Defined.

#[global] Instance Difficulty_eq_dec : EqDecision Difficulty.
Proof. solve_decision. Defined.

(** ** Constants *)

Definition BASE_NOTE_SPEED : Q := 350.
Definition JUDGMENT_LINE_Y : Q := 500.
Definition PERFECT_THRESHOLD : Q := 40.
Definition GOOD_THRESHOLD : Q := 80.
Definition GAME_HEIGHT : Q := 600.

Definition initialStats : GameStats := mkStats 0 0 0 0 0 0.

(** [KEY_MODES[keyMode].keyMap]: key code to lane index. *)
Definition keyMap (m : KeyMode) : gmap string nat :=
  match m with
  | Key4 =>
      list_to_map
        [("KeyA", 0%nat); ("ArrowLeft", 0%nat); ("KeyS", 1%nat); ("ArrowDown", 1%nat);
         ("KeyD", 2%nat); ("ArrowUp", 2%nat); ("KeyF", 3%nat); ("ArrowRight", 3%nat)]
  | Key6 =>
      list_to_map
        [("KeyA", 0%nat); ("KeyS", 1%nat); ("KeyD", 2%nat);
         ("KeyJ", 3%nat); ("KeyK", 4%nat); ("KeyL", 5%nat)]
  | Key8 =>
      list_to_map
        [("KeyA", 0%nat); ("KeyS", 1%nat); ("KeyD", 2%nat); ("KeyF", 3%nat);
         ("KeyJ", 4%nat); ("KeyK", 5%nat); ("KeyL", 6%nat); ("Semicolon", 7%nat)]
  end.

Definition lanesOf (m : KeyMode) : nat :=
  match m with Key4 => 4 | Key6 => 6 | Key8 => 8 end.

(** [DIFFICULTY_SETTINGS[difficulty]]. *)
Record DifficultyConfig : Type := mkDiff {
  noteIntervalMin : Q;
  noteIntervalMax : Q;
  patternComplexity : Q;
  diffSpeedMultiplier : Q
}.

Definition DIFFICULTY_SETTINGS (d : Difficulty) : DifficultyConfig :=
  match d with
  | easy => mkDiff 800 1200 (3 # 10) (8 # 10)
  | normal => mkDiff 400 800 (6 # 10) 1
  | hard => mkDiff 200 600 1 (12 # 10)
  end.

(** ** Session state: the component's [useState] cells and [useRef] cells *)

Record State : Type := mkState {
  gameState : GameState;
  notes : list Note;
  stats : GameStats;
  pressedKeys : gset nat;
  judgment : option JudgmentLabel;
  speedMultiplier : Q;
  keyMode : KeyMode;
  difficulty : Difficulty;
  startTimeRef : Q;
  pauseTimeRef : Q;
  noteIdRef : nat
}.

Definition setGameState (g : GameState) (s : State) : State :=
  mkState g (notes s) (stats s) (pressedKeys s) (judgment s) (speedMultiplier s)
    (keyMode s) (difficulty s) (startTimeRef s) (pauseTimeRef s) (noteIdRef s).

Definition setNotes (f : list Note -> list Note) (s : State) : State :=
  mkState (gameState s) (f (notes s)) (stats s) (pressedKeys s) (judgment s)
    (speedMultiplier s) (keyMode s) (difficulty s) (startTimeRef s)
    (pauseTimeRef s) (noteIdRef s).

Definition setStats (f : GameStats -> GameStats) (s : State) : State :=
  mkState (gameState s) (notes s) (f (stats s)) (pressedKeys s) (judgment s)
    (speedMultiplier s) (keyMode s) (difficulty s) (startTimeRef s)
    (pauseTimeRef s) (noteIdRef s).

Definition setPressedKeys (f : gset nat -> gset nat) (s : State) : State :=
  mkState (gameState s) (notes s) (stats s) (f (pressedKeys s)) (judgment s)
    (speedMultiplier s) (keyMode s) (difficulty s) (startTimeRef s)
    (pauseTimeRef s) (noteIdRef s).

Definition setJudgment (j : option JudgmentLabel) (s : State) : State :=
  mkState (gameState s) (notes s) (stats s) (pressedKeys s) j
    (speedMultiplier s) (keyMode s) (difficulty s) (startTimeRef s)
    (pauseTimeRef s) (noteIdRef s).

Definition setStartTimeRef (t : Q) (s : State) : State :=
  mkState (gameState s) (notes s) (stats s) (pressedKeys s) (judgment s)
    (speedMultiplier s) (keyMode s) (difficulty s) t (pauseTimeRef s)
    (noteIdRef s).

Definition setPauseTimeRef (t : Q) (s : State) : State :=
  mkState (gameState s) (notes s) (stats s) (pressedKeys s) (judgment s)
    (speedMultiplier s) (keyMode s) (difficulty s) (startTimeRef s) t
    (noteIdRef s).

(** ** Judgment engine: [checkNoteHit] *)

(** [{ ...note, hit: true }] *)
Definition markHit (n : Note) : Note :=
  mkNote (id n) (lane n) (startTime n) (currentY n) true.

(** [prev.map((note) => (note.id === target ? { ...note, hit: true } : note))] *)
Definition markHitById (target : nat) (l : list Note) : list Note :=
  map (fun note => if Nat.eqb (id note) target then markHit note else note) l.

(** The predicate of [notes.filter(...)] in [checkNoteHit]. *)
Definition inHitWindow (ln : nat) (note : Note) : bool :=
  Nat.eqb (lane note) ln
  && negb (hit note)
  && Qltb (JUDGMENT_LINE_Y - GOOD_THRESHOLD) (currentY note)
  && Qltb (currentY note) (JUDGMENT_LINE_Y + GOOD_THRESHOLD).

Definition distanceOf (note : Note) : Q := Qabs (currentY note - JUDGMENT_LINE_Y).

(** The callback of [laneNotes.reduce(...)]: the later note replaces the
    running closest one only when it is strictly nearer. *)
Definition closer (closest note : Note) : Note :=
  if Qltb (distanceOf note) (distanceOf closest) then note else closest.

(** [laneNotes.reduce(cb)] without an initial value, on a non-empty array. *)
Definition closestOf (first : Note) (rest : list Note) : Note :=
  fold_left closer rest first.

(** The tier factor [Math.max(1, Math.floor(prev.combo / 10) + 1)]. *)
Definition comboTier (c : Z) : Z := Z.max 1 (c / 10 + 1).

Definition addPerfect (scoreAdd : Z) (prev : GameStats) : GameStats :=
  mkStats (score prev + scoreAdd * comboTier (combo prev)) (combo prev + 1)
    (maxCombo prev) (perfect prev + 1) (good prev) (miss prev).

Definition addGood (scoreAdd : Z) (prev : GameStats) : GameStats :=
  mkStats (score prev + scoreAdd * comboTier (combo prev)) (combo prev + 1)
    (maxCombo prev) (perfect prev) (good prev + 1) (miss prev).

Definition checkNoteHit (ln : nat) (s : State) : State :=
  let laneNotes := List.filter (inHitWindow ln) (notes s) in
  match laneNotes with
  | [] => s
  | first :: rest =>
      let closestNote := closestOf first rest in
      let distance := distanceOf closestNote in
      if Qltb distance PERFECT_THRESHOLD then
        setNotes (markHitById (id closestNote))
          (setJudgment (Some (mkLabel "PERFECT!" "text-yellow-400"))
             (setStats (addPerfect 1000) s))
      else if Qltb distance GOOD_THRESHOLD then
        setNotes (markHitById (id closestNote))
          (setJudgment (Some (mkLabel "GOOD" "text-green-400"))
             (setStats (addGood 500) s))
      else s
  end.

(** ** Keyboard handlers *)

Definition handleKeyDown (code : string) (s : State) : State :=
  match gameState s with
  | playing =>
      match keyMap (keyMode s) !! code with
      | Some ln =>
          if decide (ln ∈ pressedKeys s) then s
          else checkNoteHit ln (setPressedKeys (fun prev => prev ∪ {[ ln ]}) s)
      | None => s
      end
  | _ => s
  end.

Definition handleKeyUp (code : string) (s : State) : State :=
  match keyMap (keyMode s) !! code with
  | Some ln => setPressedKeys (fun prev => prev ∖ {[ ln ]}) s
  | None => s
  end.

(** ** Frame update: [gameLoop] *)

(** Motion model: the updater of the first [setNotes] of [gameLoop]. *)
Definition moveNote (elapsed speed diffSpeed : Q) (note : Note) : Note :=
  if hit note then note
  else
    let noteTime := (elapsed - startTime note)%Q in
    let newY := (noteTime / 1000 * BASE_NOTE_SPEED * speed * diffSpeed)%Q in
    mkNote (id note) (lane note) (startTime note) newY (hit note).

(** The miss test of [notes.forEach] in [gameLoop]. *)
Definition isMissed (note : Note) : bool :=
  Qltb (JUDGMENT_LINE_Y + GOOD_THRESHOLD) (currentY note) && negb (hit note).

Definition addMiss (prev : GameStats) : GameStats :=
  mkStats (score prev) 0 (Z.max (maxCombo prev) (combo prev))
    (perfect prev) (good prev) (miss prev + 1).

(** One iteration of [notes.forEach] over the rendered [notes]: a missed
    note queues one [setStats] and one [setNotes] updater. *)
Definition missOne (st : State) (note : Note) : State :=
  if isMissed note then setNotes (markHitById (id note)) (setStats addMiss st)
  else st.

Definition missSweep (rendered : list Note) (s : State) : State :=
  fold_left missOne rendered s.

(** [startTimeRef.current] after the guard at the head of [gameLoop]. *)
Definition startOf (timestamp : Q) (s : State) : Q :=
  if Qeq_bool (startTimeRef s) 0 then (timestamp - pauseTimeRef s)%Q
  else startTimeRef s.

(** The local [elapsed] of [gameLoop]. *)
Definition elapsedOf (timestamp : Q) (s : State) : Q :=
  (timestamp - startOf timestamp s)%Q.

Definition gameLoop (timestamp : Q) (s : State) : State :=
  let s1 := setStartTimeRef (startOf timestamp s) s in
  let elapsed := elapsedOf timestamp s in
  let s2 :=
    setNotes
      (map (moveNote elapsed (speedMultiplier s)
              (diffSpeedMultiplier (DIFFICULTY_SETTINGS (difficulty s)))))
      s1 in
  missSweep (notes s) s2.

(** ** Lifecycle commands *)

Definition togglePause (now : Q) (s : State) : State :=
  match gameState s with
  | playing =>
      let s1 := setGameState paused s in
      if Qeq_bool (startTimeRef s) 0 then s1
      else setPauseTimeRef (now - startTimeRef s)%Q s1
  | paused => setStartTimeRef 0 (setGameState playing s)
  | _ => s
  end.

Definition resetGame (s : State) : State :=
  setPauseTimeRef 0
    (setStartTimeRef 0 (setNotes (fun _ => []) (setGameState menu s))).

(** ** Chart generator: [generateNotes] *)

(** [generatePatterns()]: the candidate lane subsets for a lane count and a
    difficulty. *)
Definition generatePatterns (lanes : nat) (diffConfig : DifficultyConfig)
    (d : Difficulty) : list (list nat) :=
  let singles := map (fun i => [i]) (seq 0 lanes) in
  let doubles :=
    if Qle_bool (6 # 10) (patternComplexity diffConfig) then
      flat_map
        (fun i =>
           [i; (i + 1)%nat]
             :: (if (i <? lanes - 2)%nat then [[i; (i + 2)%nat]] else []))
        (seq 0 (lanes - 1))
    else [] in
  let triples :=
    if Qle_bool 1 (patternComplexity diffConfig) && (6 <=? lanes)%nat then
      map (fun i => [i; (i + 1)%nat; (i + 2)%nat]) (seq 0 (lanes - 2))
    else [] in
  let quads :=
    if Qle_bool 1 (patternComplexity diffConfig) && (8 <=? lanes)%nat then
      [[0; 1; 2; 3]; [4; 5; 6; 7]; [0; 2; 4; 6]; [1; 3; 5; 7]]%nat
    else [] in
  let patterns := singles ++ doubles ++ triples ++ quads in
  if decide (d = easy) then
    List.filter (fun pattern => (length pattern <=? 2)%nat) patterns
  else patterns.

(** [Math.floor(r * len)] for a draw [r] of [Math.random()]. *)
Definition randomIndex (r : Q) (len : nat) : Z :=
  Qfloor (r * inject_Z (Z.of_nat len)).

(** Array indexing [arr[i]] by an integral number: [None] is [undefined]. *)
Definition arrayAt {A : Type} (arr : list A) (i : Z) : option A :=
  if i <? 0 then None else nth_error arr (Z.to_nat i).

(** The pattern choice of one loop iteration.  [rnd k] is the [k]-th draw
    of [Math.random()]; the result carries the index of the next draw. *)
Definition selectPattern (d : Difficulty) (patterns : list (list nat))
    (rnd : nat -> Q) (k : nat) : option (list nat) * nat :=
  if decide (d = easy) then
    let singleNotes := List.filter (fun p => (length p =? 1)%nat) patterns in
    let doubleNotes := List.filter (fun p => (length p =? 2)%nat) patterns in
    if Qltb (rnd k) (7 # 10) then
      (arrayAt singleNotes (randomIndex (rnd (S k)) (length singleNotes)), S (S k))
    else
      (match arrayAt doubleNotes (randomIndex (rnd (S k)) (length doubleNotes)) with
       | Some p => Some p
       | None => arrayAt singleNotes 0
       end, S (S k))
  else (arrayAt patterns (randomIndex (rnd k) (length patterns)), S k).

(** [selectedPattern.forEach(lane => newNotes.push({...}))]: one note per
    lane of the pattern, ids drawn from [noteIdRef.current++]. *)
Fixpoint emit (pattern : list nat) (time : Q) (nextId : nat) : list Note :=
  match pattern with
  | [] => []
  | ln :: rest => mkNote nextId ln time (-100) false :: emit rest time (S nextId)
  end.

(** The [for (let time = 3000; time < 90000; time += ...)] loop.  [fuel]
    bounds the number of iterations; [None] stands for a run that returns
    no chart (an [undefined] pattern makes [forEach] throw, or the fuel is
    used up). *)
Fixpoint genLoop (fuel : nat) (d : Difficulty) (diffConfig : DifficultyConfig)
    (patterns : list (list nat)) (rnd : nat -> Q) (k : nat) (time : Q)
    (nextId : nat) (newNotes : list Note) : option (list Note * nat) :=
  if Qltb time 90000 then
    match fuel with
    | O => None
    | S fuel' =>
        match selectPattern d patterns rnd k with
        | (None, _) => None
        | (Some selectedPattern, k1) =>
            let newNotes' := newNotes ++ emit selectedPattern time nextId in
            let time' :=
              (time + (noteIntervalMin diffConfig
                       + rnd k1 * (noteIntervalMax diffConfig
                                   - noteIntervalMin diffConfig)))%Q in
            genLoop fuel' d diffConfig patterns rnd (S k1) time'
              (nextId + length selectedPattern)%nat newNotes'
        end
    end
  else Some (newNotes, nextId).

(** [Array.prototype.sort(compareFn)] is a stable sort; it is modelled by a
    stable insertion sort driven by the sign of [compareFn]. *)
Fixpoint insertBy (compareFn : Note -> Note -> Q) (x : Note) (l : list Note)
    : list Note :=
  match l with
  | [] => [x]
  | y :: l' =>
      if Qle_bool (compareFn x y) 0 then x :: y :: l'
      else y :: insertBy compareFn x l'
  end.

Definition sortBy (compareFn : Note -> Note -> Q) (l : list Note) : list Note :=
  fold_right (insertBy compareFn) [] l.

(** [(a, b) => a.startTime - b.startTime] *)
Definition byStartTime (a b : Note) : Q := (startTime a - startTime b)%Q.

Definition generateNotes (fuel : nat) (km : KeyMode) (d : Difficulty)
    (rnd : nat -> Q) (nextId : nat) : option (list Note * nat) :=
  let lanes := lanesOf km in
  let diffConfig := DIFFICULTY_SETTINGS d in
  let patterns := generatePatterns lanes diffConfig d in
  match genLoop fuel d diffConfig patterns rnd 0 3000 nextId [] with
  | Some (newNotes, nextId') => Some (sortBy byStartTime newNotes, nextId')
  | None => None
  end.

(** [startGame]: a fresh chart, zeroed stats and clock, state [playing]. *)
Definition startGame (fuel : nat) (rnd : nat -> Q) (s : State) : option State :=
  match generateNotes fuel (keyMode s) (difficulty s) rnd (noteIdRef s) with
  | Some (newNotes, nextId') =>
      Some (mkState playing newNotes initialStats (pressedKeys s) (judgment s)
              (speedMultiplier s) (keyMode s) (difficulty s) 0 0 nextId')
  | None => None
  end.

(** Iterations that always suffice: the cursor starts at 3000, stops at
    90000 and advances by at least 200 per iteration. *)
Definition enoughFuel : nat := 435.

(** ** Derived notions used by the statements *)

(** The [closestNote] that [checkNoteHit] settles on, if its filter keeps
    any note. *)
Definition selected (ln : nat) (s : State) : option Note :=
  match List.filter (inHitWindow ln) (notes s) with
  | [] => None
  | first :: rest => Some (closestOf first rest)
  end.

Definition PERFECT_LABEL : JudgmentLabel := mkLabel "PERFECT!" "text-yellow-400".
Definition GOOD_LABEL : JudgmentLabel := mkLabel "GOOD" "text-green-400".

(** Ids come from the counter [noteIdRef.current++]: no two notes share one. *)
Definition uniqueIds (l : list Note) : Prop := List.NoDup (map id l).

(** Positionwise: the note [c] becomes [markHit c], every other note stays. *)
Definition onlyResolves (c : Note) (before after : list Note) : Prop :=
  Forall2 (fun n n' => (n = c /\ n' = markHit c) \/ (n <> c /\ n' = n))
    before after.

(** A chart in time order. *)
Definition chronological (l : list Note) : Prop :=
  StronglySorted (fun a b => (startTime a <= startTime b)%Q) l.

(** Number of resolved notes. *)
Definition resolvedCount (l : list Note) : Z :=
  Z.of_nat (length (List.filter hit l)).

(** Notes judged or missed so far according to the counters. *)
Definition countedNotes (st : GameStats) : Z := perfect st + good st + miss st.

(** Is [n] the target of some [setNotes] queued by the sweep over
    [rendered]? *)
Definition sweptId (rendered : list Note) (n : Note) : bool :=
  existsb (fun r => isMissed r && Nat.eqb (id r) (id n)) rendered.

(** The invariant of a session: ids stay unique and every resolved note is
    counted exactly once. *)
Definition sessionInv (s : State) : Prop :=
  uniqueIds (notes s) /\ countedNotes (stats s) = resolvedCount (notes s).

(** ** Sessions as event traces *)

Inductive Event : Type :=
  | KeyDown (code : string)
  | KeyUp (code : string)
  | Frame (timestamp : Q)
  | TogglePause (now : Q)
  | JudgmentTimeout.

(** One event.  The animation frame is requested only while the state is
    [playing] (the effect on [gameState, gameLoop] cancels it otherwise);
    [JudgmentTimeout] is the [setTimeout(() => setJudgment(null), 500)]. *)
Definition step (e : Event) (s : State) : State :=
  match e with
  | KeyDown code => handleKeyDown code s
  | KeyUp code => handleKeyUp code s
  | Frame timestamp =>
      if decide (gameState s = playing) then gameLoop timestamp s else s
  | TogglePause now => togglePause now s
  | JudgmentTimeout => setJudgment None s
  end.

Definition run (es : list Event) (s : State) : State :=
  fold_left (fun st e => step e st) es s.

(** A session right after [startGame]: playing, zeroed stats and clock,
    every note unresolved. *)
Definition freshSession (s : State) : Prop :=
  gameState s = playing
  /\ stats s = initialStats
  /\ Forall (fun n => hit n = false) (notes s)
  /\ uniqueIds (notes s).

(** Does the event release, respectively press, lane [ln] under key mode
    [km]? *)
Definition releases (km : KeyMode) (ln : nat) (e : Event) : bool :=
  match e with
  | KeyUp code => bool_decide (keyMap km !! code = Some ln)
  | _ => false
  end.

Definition presses (km : KeyMode) (ln : nat) (e : Event) : bool :=
  match e with
  | KeyDown code => bool_decide (keyMap km !! code = Some ln)
  | _ => false
  end.

(** ** Pause / resume cycles of the clock *)

(** A frame at [t] reads the elapsed time; every further timestamp [t'] of
    [ts] stands for: pause at the instant of the last frame, resume, next
    frame at [t'].  The result is the elapsed time read by the last frame
    and the state after it. *)
Fixpoint pauseResumeCycles (ts : list Q) (t : Q) (s : State) : Q * State :=
  match ts with
  | [] => (elapsedOf t s, gameLoop t s)
  | t' :: rest =>
      pauseResumeCycles rest t' (togglePause t' (togglePause t (gameLoop t s)))
  end.

(** ** The judgment classes of the specification *)

Inductive Judgment : Type := PERFECT | GOOD | NONE.

(** Classification as the specification words it: strictly below the
    perfect threshold is PERFECT, else strictly below the good threshold is
    GOOD, else no hit. *)
Definition specClassify (distance : Q) : Judgment :=
  if Qltb distance PERFECT_THRESHOLD then PERFECT
  else if Qltb distance GOOD_THRESHOLD then GOOD
  else NONE.

(** What a keypress did, read off the state change: the counter that went
    up tells the class. *)
Definition judged (before after : State) : Judgment :=
  if perfect (stats after) =? perfect (stats before) + 1 then PERFECT
  else if good (stats after) =? good (stats before) + 1 then GOOD
  else NONE.

Definition baseValue (j : Judgment) : Z :=
  match j with PERFECT => 1000 | GOOD => 500 | NONE => 0 end.

(** ** Worked sessions *)

Definition menuState : State :=
  mkState menu [] initialStats ∅ None 1 Key4 normal 0 0 0.

(** A random source whose every draw is one half. *)
Definition halfDraws : nat -> Q := fun _ => 1 # 2.

(** A playing four-key, normal-difficulty session holding the given notes
    and stats. *)
Definition playOf (l : list Note) (st : GameStats) : State :=
  mkState playing l st ∅ None 1 Key4 normal 0 0 (length l).

(** Two unresolved notes of lane 0 inside the window, 45 and 10 pixels off
    the line. *)
Definition twoInWindow : State :=
  playOf [mkNote 0 0 1000 545 false; mkNote 1 0 1200 490 false] initialStats.

(** Ten PERFECTs so far, the eleventh note on the line. *)
Definition atCombo10 : State :=
  playOf [mkNote 10 0 5000 500 false] (mkStats 10000 10 0 10 0 0).

(** One note exactly [PERFECT_THRESHOLD] below the line and one exactly
    [GOOD_THRESHOLD] above it. *)
Definition onBoundaries : State :=
  playOf [mkNote 0 0 1000 540 false; mkNote 1 0 2000 420 false] initialStats.

(** Two unresolved notes beyond the window, one resolved note beyond it and
    one note still above the line, at combo 3. *)
Definition lateNotes : State :=
  playOf
    [mkNote 0 0 1000 581 false; mkNote 1 1 1000 600 false;
     mkNote 2 2 1000 590 true; mkNote 3 3 2000 300 false]
    (mkStats 3000 3 1 3 0 0).

(** A single note far above the window. *)
Definition farNote : State := playOf [mkNote 0 0 1000 100 false] initialStats.

(** Lane 0 is held down while two of its notes are inside the window. *)
Definition holdingLane0 : State :=
  mkState playing
    [mkNote 0 0 1000 545 false; mkNote 1 0 1200 490 false]
    initialStats {[ 0%nat ]} None 1 Key4 normal 0 0 2.

(** Key repeats of lane 0, by either of its codes, around a frame. *)
Definition heldTrace : list Event :=
  [KeyDown "KeyA"; Frame 1000; KeyDown "ArrowLeft"; KeyUp "KeyS"].

(** Press, release, frame, press again. *)
Definition twoPresses : list Event :=
  [KeyDown "KeyA"; KeyUp "KeyA"; Frame 1000; KeyDown "KeyA"].

(** A playing session whose clock reference was fixed at 400 ms. *)
Definition midSession : State := setStartTimeRef 400 twoInWindow.

(** A session resumed after a pause at 600 ms: the reference is unset and
    the pause offset holds the elapsed time of the pause. *)
Definition resumedAt600 : State := setPauseTimeRef 600 twoInWindow.

(** [k] notes of lane 0, all on the judgment line, with ids from [i]. *)
Fixpoint onLine (i : nat) (k : nat) : list Note :=
  match k with
  | O => []
  | S k' => mkNote i 0 (inject_Z (Z.of_nat i)) 500 false :: onLine (S i) k'
  end.

(** [k] taps of the key of lane 0. *)
Fixpoint taps (k : nat) : list Event :=
  match k with
  | O => []
  | S k' => KeyDown "KeyA" :: KeyUp "KeyA" :: taps k'
  end.

(** First frame at 1000 ms, a frame that brings the notes scheduled at
    3000 ms onto the line, then a press of lane 0. *)
Definition firstHit : list Event :=
  [Frame 1000; Frame (1000 + 3000 + (10000 # 7)); KeyDown "KeyA"].

(** First frame at 1000 ms, then a frame 5000 ms later: it derives the
    position 700 for the notes scheduled at 3000 ms. *)
Definition lateFrames : list Event :=
  [Frame 1000; Frame (1000 + 5000)].

(** ** The first variant of the component

    The earliest [RhythmGame] of the file: four fixed lanes, notes with
    [time] and [y], thresholds 50 / 100, no pause offset.  Its keyboard
    handlers are those above for the four-key table; only the parts that
    differ are modelled. *)
Module V1.

Record Note : Type := mkNote {
  id : nat;
  lane : nat;
  time : Q;
  y : Q;
  hit : bool
}.

Definition NOTE_SPEED : Q := 300.
Definition JUDGMENT_LINE_Y : Q := 500.
Definition PERFECT_THRESHOLD : Q := 50.
Definition GOOD_THRESHOLD : Q := 100.

Record State : Type := mkState {
  gameState : GameState;
  notes : list Note;
  stats : GameStats;
  judgment : option JudgmentLabel;
  currentTime : Q;
  startTimeRef : Q
}.

Definition setNotes (f : list Note -> list Note) (s : State) : State :=
  mkState (gameState s) (f (notes s)) (stats s) (judgment s) (currentTime s)
    (startTimeRef s).

Definition setStats (f : GameStats -> GameStats) (s : State) : State :=
  mkState (gameState s) (notes s) (f (stats s)) (judgment s) (currentTime s)
    (startTimeRef s).

Definition setJudgment (j : option JudgmentLabel) (s : State) : State :=
  mkState (gameState s) (notes s) (stats s) j (currentTime s) (startTimeRef s).

Definition distanceOf (note : Note) : Q := Qabs (y note - JUDGMENT_LINE_Y).

(** The predicate of [notes.find(...)]. *)
Definition inHitWindow (ln : nat) (note : Note) : bool :=
  Nat.eqb (lane note) ln && negb (hit note)
  && Qltb (distanceOf note) GOOD_THRESHOLD.

Definition markHit (n : Note) : Note :=
  mkNote (id n) (lane n) (time n) (y n) true.

Definition markHitById (target : nat) (l : list Note) : list Note :=
  map (fun note => if Nat.eqb (id note) target then markHit note else note) l.

(** [score: prev.score + scoreAdd * (prev.combo + 1)] *)
Definition addPerfect (scoreAdd : Z) (prev : GameStats) : GameStats :=
  mkStats (score prev + scoreAdd * (combo prev + 1)) (combo prev + 1)
    (maxCombo prev) (perfect prev + 1) (good prev) (miss prev).

Definition addGood (scoreAdd : Z) (prev : GameStats) : GameStats :=
  mkStats (score prev + scoreAdd * (combo prev + 1)) (combo prev + 1)
    (maxCombo prev) (perfect prev) (good prev + 1) (miss prev).

Definition checkNoteHit (ln : nat) (s : State) : State :=
  match List.find (inHitWindow ln) (notes s) with
  | None => s
  | Some hitWindow =>
      let distance := distanceOf hitWindow in
      if Qltb distance PERFECT_THRESHOLD then
        setNotes (markHitById (id hitWindow))
          (setJudgment (Some (mkLabel "PERFECT!" "text-yellow-400"))
             (setStats (addPerfect 1000) s))
      else if Qltb distance GOOD_THRESHOLD then
        setNotes (markHitById (id hitWindow))
          (setJudgment (Some (mkLabel "GOOD" "text-green-400"))
             (setStats (addGood 500) s))
      else
        setNotes (markHitById (id hitWindow))
          (setJudgment (Some (mkLabel "" "")) s)
  end.

(** The position updater: every note, resolved or not, is repositioned. *)
Definition moveNote (elapsed : Q) (note : Note) : Note :=
  mkNote (id note) (lane note) (time note)
    (-100 + (elapsed - time note) / 1000 * NOTE_SPEED)%Q (hit note).

Definition isMissed (note : Note) : bool :=
  negb (hit note) && Qltb (JUDGMENT_LINE_Y + GOOD_THRESHOLD) (y note).

(** The miss updater maps over the notes it is given and queues one
    [setStats] per missed note. *)
Definition missSweep (s : State) : State :=
  fold_left
    (fun st note => if isMissed note then setStats addMiss st else st)
    (notes s)
    (setNotes (map (fun note => if isMissed note then markHit note else note)) s).

Definition gameLoop (timestamp : Q) (s : State) : State :=
  let start := if Qeq_bool (startTimeRef s) 0 then timestamp else startTimeRef s in
  let elapsed := (timestamp - start)%Q in
  let s1 :=
    mkState (gameState s) (notes s) (stats s) (judgment s) elapsed start in
  missSweep (setNotes (map (moveNote elapsed)) s1).

Definition togglePause (s : State) : State :=
  match gameState s with
  | playing =>
      mkState paused (notes s) (stats s) (judgment s) (currentTime s)
        (startTimeRef s)
  | paused =>
      mkState playing (notes s) (stats s) (judgment s) (currentTime s) 0
  | _ => s
  end.

(** The effect on [stats.combo]:
    [setStats(prev => ({...prev, maxCombo: Math.max(prev.maxCombo, prev.combo)}))]. *)
Definition syncMaxCombo (prev : GameStats) : GameStats :=
  mkStats (score prev) (combo prev) (Z.max (maxCombo prev) (combo prev))
    (perfect prev) (good prev) (miss prev).

(** A handler followed by the effect, which runs when [stats.combo] changed. *)
Definition withEffects (handler : State -> State) (s : State) : State :=
  let s' := handler s in
  if combo (stats s') =? combo (stats s) then s' else setStats syncMaxCombo s'.

End V1.

(** ** Notions for the further properties *)

(** Two notes that do not collide: they differ in lane or in time. *)
Definition apart (a b : Note) : Prop :=
  lane a <> lane b \/ ~ (startTime a == startTime b)%Q.

(** What no event changes in a note: its id, lane and scheduled time. *)
Definition chartKey (n : Note) : nat * nat * Q := (id n, lane n, startTime n).

(** The position the motion model gives a note at an elapsed time. *)
Definition positionAt (elapsed speed diffSpeed : Q) (note : Note) : Q :=
  ((elapsed - startTime note) / 1000 * BASE_NOTE_SPEED * speed * diffSpeed)%Q.

Definition isToggle (e : Event) : bool :=
  match e with TogglePause _ => true | _ => false end.

(** The stats a fresh session can reach. *)
Definition statsInv (st : GameStats) : Prop :=
  0 <= combo st <= perfect st + good st
  /\ 0 <= maxCombo st <= perfect st + good st
  /\ 0 <= perfect st /\ 0 <= good st /\ 0 <= miss st
  /\ 1000 * perfect st + 500 * good st <= score st.

(** ** Sessions of the first variant *)

Inductive V1Event : Type :=
  | V1Hit (ln : nat)
  | V1Frame (timestamp : Q).

(** A judged keypress or a frame of the first variant, followed by the
    effect on [stats.combo]. *)
Definition V1step (e : V1Event) (s : V1.State) : V1.State :=
  match e with
  | V1Hit ln => V1.withEffects (V1.checkNoteHit ln) s
  | V1Frame timestamp => V1.withEffects (V1.gameLoop timestamp) s
  end.

Definition V1run (es : list V1Event) (s : V1.State) : V1.State :=
  fold_left (fun st e => V1step e st) es s.

(** The largest combo held at the start of the run or after any of its
    events. *)
Fixpoint V1peak (es : list V1Event) (s : V1.State) : Z :=
  match es with
  | [] => combo (V1.stats s)
  | e :: es' => Z.max (combo (V1.stats s)) (V1peak es' (V1step e s))
  end.

(** ** Note elements: the keys of [notesMapRef]

    The map from note ids to the elements that show them, reduced to its
    key set; the second half of [gameLoop] creates elements for the active
    notes and drops the elements of notes that are gone or below the
    screen.  (The delayed removals after a hit or a miss are timers of
    their own and are not part of the frame.) *)

(** The predicate of [notes.filter(...)] that picks the [activeNotes]. *)
Definition isActive (note : Note) : bool :=
  Qltb (-150) (currentY note)
  && Qltb (currentY note) (GAME_HEIGHT + 100)
  && negb (hit note).

(** [activeNotes.forEach]: a note without an element gets one when the
    game area is mounted. *)
Definition createElements (rendered : list Note) (mounted : bool)
    (m : gset nat) : gset nat :=
  fold_left
    (fun acc note =>
       if decide (id note ∈ acc) then acc
       else if mounted then acc ∪ {[ id note ]} else acc)
    (List.filter isActive rendered) m.

(** The test of the clean-up loop: no note with this id, or the first such
    note is below the screen. *)
Definition offScreen (rendered : list Note) (noteId : nat) : bool :=
  match List.find (fun n => Nat.eqb (id n) noteId) rendered with
  | None => true
  | Some note => Qltb (GAME_HEIGHT + 100) (currentY note)
  end.

Definition cleanElements (rendered : list Note) (m : gset nat) : gset nat :=
  filter (fun noteId => offScreen rendered noteId = false) m.

Definition elementsAfterFrame (rendered : list Note) (mounted : bool)
    (m : gset nat) : gset nat :=
  cleanElements rendered (createElements rendered mounted m).

(** ** The generator of the speed-only variant

    Four lanes, a fixed pattern list, and a cursor that advances by
    [400 + Math.random() * 600]. *)
Module V3.

Definition patterns : list (list nat) :=
  [[0]; [1]; [2]; [3];
   [0; 2]; [1; 3]; [0; 3]; [1; 2];
   [0; 1]; [1; 2]; [2; 3];
   [0; 1; 2]; [1; 2; 3]]%nat.

Fixpoint genLoop (fuel : nat) (rnd : nat -> Q) (k : nat) (time : Q)
    (nextId : nat) (newNotes : list Note) : option (list Note * nat) :=
  if Qltb time 90000 then
    match fuel with
    | O => None
    | S fuel' =>
        match arrayAt patterns (randomIndex (rnd k) (length patterns)) with
        | None => None
        | Some pattern =>
            genLoop fuel' rnd (S (S k)) (time + (400 + rnd (S k) * 600))%Q
              (nextId + length pattern)%nat
              (newNotes ++ emit pattern time nextId)
        end
    end
  else Some (newNotes, nextId).

Definition generateNotes (fuel : nat) (rnd : nat -> Q) (nextId : nat)
    : option (list Note * nat) :=
  match genLoop fuel rnd 0 3000 nextId [] with
  | Some (newNotes, nextId') => Some (sortBy byStartTime newNotes, nextId')
  | None => None
  end.

(** Iterations that always suffice: from 3000 to 90000 in steps of at
    least 400. *)
Definition enoughFuel : nat := 218.

End V3.

(** The settings under which the loop of the main variant is the loop of
    the speed-only variant. *)
Definition V3config : DifficultyConfig := mkDiff 400 1000 1 1.

(** ** Further worked sessions *)

(** [midSession], paused at 2000 ms. *)
Definition pausedSession : State := togglePause 2000 midSession.

(** Events that do nothing while the session is paused. *)
Definition frozenTrace : list Event :=
  [KeyDown "KeyA"; Frame 3000; KeyUp "KeyA"; JudgmentTimeout].

(** A session of the first variant: two unresolved notes of lane 0, the
    first 90 pixels off the line, the second on it, after one PERFECT. *)
Definition V1twoNotes : V1.State :=
  V1.mkState playing
    [V1.mkNote 0 0 1000 590 false; V1.mkNote 1 0 1300 500 false]
    (mkStats 1000 1 1 1 0 0) None 0 0.

(** Two judged keypresses of lane 0, then a frame late enough to miss
    whatever is left. *)
Definition V1trace : list V1Event := [V1Hit 0; V1Hit 0; V1Frame 9000].

(** * Properties *)

(** ** Rational comparisons *)

Lemma Qltb_lt (x y : Q) : Qltb x y = true <-> (x < y)%Q.
Proof.
  unfold Qltb. rewrite negb_true_iff.
  split; intro H.
  - apply Qnot_le_lt. intro Hle. apply Qle_bool_iff in Hle. congruence.
  - destruct (Qle_bool y x) eqn:E; [|reflexivity].
    apply Qle_bool_iff in E. exfalso. apply (Qlt_not_le _ _ H E).
Qed.

Lemma Qltb_ge (x y : Q) : Qltb x y = false <-> (y <= x)%Q.
Proof.
  unfold Qltb. rewrite negb_false_iff. apply Qle_bool_iff.
Qed.

(** The two-sided window test of the filter is the strict distance test. *)
Lemma window_distance (yy : Q) :
  (JUDGMENT_LINE_Y - GOOD_THRESHOLD < yy /\ yy < JUDGMENT_LINE_Y + GOOD_THRESHOLD
   <-> Qabs (yy - JUDGMENT_LINE_Y) < GOOD_THRESHOLD)%Q.
Proof.
  rewrite Qabs_Qlt_condition.
  unfold JUDGMENT_LINE_Y, GOOD_THRESHOLD. split; intros [H1 H2]; split; lra.
Qed.

Lemma inHitWindow_spec (ln : nat) (n : Note) :
  inHitWindow ln n = true
  <-> lane n = ln /\ hit n = false /\ (distanceOf n < GOOD_THRESHOLD)%Q.
Proof.
  unfold inHitWindow, distanceOf.
  rewrite !andb_true_iff, !Qltb_lt, Nat.eqb_eq, negb_true_iff.
  rewrite <- window_distance. tauto.
Qed.

(** ** The nearest-note fold *)

Lemma closer_cases (a b : Note) :
  (closer a b = a /\ (distanceOf a <= distanceOf b)%Q)
  \/ (closer a b = b /\ (distanceOf b < distanceOf a)%Q).
Proof.
  unfold closer. destruct (Qltb (distanceOf b) (distanceOf a)) eqn:E.
  - right. split; [reflexivity|]. now apply Qltb_lt.
  - left. split; [reflexivity|]. now apply Qltb_ge.
Qed.

Lemma closestOf_In (rest : list Note) (first : Note) :
  In (closestOf first rest) (first :: rest).
Proof.
  unfold closestOf. revert first.
  induction rest as [|b rest IH]; intros first; simpl.
  - now left.
  - destruct (closer_cases first b) as [[-> _]|[-> _]].
    + destruct (IH first) as [H|H]; [left; exact H | right; right; exact H].
    + right. destruct (IH b) as [H|H]; [left; exact H | right; exact H].
Qed.

Lemma closestOf_le_first (rest : list Note) (first : Note) :
  (distanceOf (closestOf first rest) <= distanceOf first)%Q.
Proof.
  unfold closestOf. revert first.
  induction rest as [|b rest IH]; intros first; simpl.
  - apply Qle_refl.
  - destruct (closer_cases first b) as [[-> _]|[-> Hlt]].
    + apply IH.
    + eapply Qle_trans; [apply IH|]. now apply Qlt_le_weak.
Qed.

Lemma closestOf_min (rest : list Note) (first n : Note) :
  In n (first :: rest) ->
  (distanceOf (closestOf first rest) <= distanceOf n)%Q.
Proof.
  unfold closestOf. revert first.
  induction rest as [|b rest IH]; intros first Hin; simpl.
  - destruct Hin as [<-|[]]. apply Qle_refl.
  - destruct Hin as [<-|[<-|Hin]].
    + destruct (closer_cases first b) as [[-> _]|[-> Hlt]].
      * apply (closestOf_le_first rest first).
      * eapply Qle_trans; [apply (closestOf_le_first rest b)|].
        now apply Qlt_le_weak.
    + destruct (closer_cases first b) as [[-> Hle]|[-> _]].
      * eapply Qle_trans; [apply (closestOf_le_first rest first)|exact Hle].
      * apply (closestOf_le_first rest b).
    + apply IH. right. exact Hin.
Qed.

(** ** What [selected] says about the chosen note *)

Lemma selected_In (ln : nat) (s : State) (c : Note) :
  selected ln s = Some c -> In c (notes s) /\ inHitWindow ln c = true.
Proof.
  unfold selected. destruct (List.filter (inHitWindow ln) (notes s)) as [|f r] eqn:E.
  - discriminate.
  - intros [= <-]. apply filter_In. rewrite E. apply closestOf_In.
Qed.

Lemma selected_min (ln : nat) (s : State) (c n : Note) :
  selected ln s = Some c -> In n (notes s) -> inHitWindow ln n = true ->
  (distanceOf c <= distanceOf n)%Q.
Proof.
  unfold selected. destruct (List.filter (inHitWindow ln) (notes s)) as [|f r] eqn:E.
  - discriminate.
  - intros [= <-] Hin Hw. apply closestOf_min. rewrite <- E.
    apply filter_In. now split.
Qed.

Lemma selected_None (ln : nat) (s : State) :
  selected ln s = None <->
  (forall n, In n (notes s) -> inHitWindow ln n = false).
Proof.
  unfold selected. split.
  - destruct (List.filter (inHitWindow ln) (notes s)) as [|f r] eqn:E; [|discriminate].
    intros _ n Hin. destruct (inHitWindow ln n) eqn:Hw; [|reflexivity].
    assert (In n []) as []. rewrite <- E. apply filter_In. now split.
  - intros H. destruct (List.filter (inHitWindow ln) (notes s)) as [|f r] eqn:E;
      [reflexivity|].
    assert (In f (List.filter (inHitWindow ln) (notes s))) as Hf
      by (rewrite E; now left).
    apply filter_In in Hf. destruct Hf as [Hin Hw]. rewrite (H f Hin) in Hw.
    discriminate.
Qed.

(** [checkNoteHit] by cases on the chosen note. *)
Lemma checkNoteHit_None (ln : nat) (s : State) :
  selected ln s = None -> checkNoteHit ln s = s.
Proof.
  unfold selected, checkNoteHit.
  destruct (List.filter (inHitWindow ln) (notes s)); [reflexivity|discriminate].
Qed.

Lemma checkNoteHit_perfect (ln : nat) (s : State) (c : Note) :
  selected ln s = Some c -> (distanceOf c < PERFECT_THRESHOLD)%Q ->
  checkNoteHit ln s =
    setNotes (markHitById (id c))
      (setJudgment (Some PERFECT_LABEL) (setStats (addPerfect 1000) s)).
Proof.
  unfold selected, checkNoteHit.
  destruct (List.filter (inHitWindow ln) (notes s)) as [|f r]; [discriminate|].
  intros [= <-] Hd. apply Qltb_lt in Hd. rewrite Hd. reflexivity.
Qed.

Lemma checkNoteHit_good (ln : nat) (s : State) (c : Note) :
  selected ln s = Some c -> (PERFECT_THRESHOLD <= distanceOf c)%Q ->
  checkNoteHit ln s =
    setNotes (markHitById (id c))
      (setJudgment (Some GOOD_LABEL) (setStats (addGood 500) s)).
Proof.
  intros Hsel Hd. destruct (selected_In _ _ _ Hsel) as [_ Hw].
  apply inHitWindow_spec in Hw. destruct Hw as (_ & _ & Hg).
  revert Hsel. unfold selected, checkNoteHit.
  destruct (List.filter (inHitWindow ln) (notes s)) as [|f r]; [discriminate|].
  intros [= Hc]. rewrite Hc.
  apply Qltb_ge in Hd. apply Qltb_lt in Hg. rewrite Hd, Hg. reflexivity.
Qed.

(** ** Marking by id under unique ids *)

Lemma uniqueIds_inj (l : list Note) (a b : Note) :
  uniqueIds l -> In a l -> In b l -> id a = id b -> a = b.
Proof.
  unfold uniqueIds. induction l as [|x l IH]; simpl; intros Hnd Ha Hb Hid.
  - destruct Ha.
  - inversion Hnd as [|? ? Hnotin Hnd']; subst.
    destruct Ha as [<-|Ha], Hb as [<-|Hb].
    + reflexivity.
    + exfalso. apply Hnotin. rewrite Hid. now apply in_map.
    + exfalso. apply Hnotin. rewrite <- Hid. now apply in_map.
    + now apply IH.
Qed.

Lemma markHitById_onlyResolves (l : list Note) (c : Note) :
  uniqueIds l -> In c l -> onlyResolves c l (markHitById (id c) l).
Proof.
  intros Hu Hc. unfold onlyResolves, markHitById.
  assert (forall n, In n l -> id n = id c -> n = c) as Hinj
    by (intros n Hn Hid; now apply (uniqueIds_inj l)).
  clear Hu Hc. induction l as [|x l IH]; simpl.
  - constructor.
  - constructor.
    + destruct (Nat.eqb (id x) (id c)) eqn:E.
      * apply Nat.eqb_eq in E. left.
        rewrite (Hinj x (or_introl eq_refl) E). now split.
      * right. split; [|reflexivity]. intros ->.
        rewrite Nat.eqb_refl in E. discriminate.
    + apply IH. intros n Hn. apply Hinj. now right.
Qed.

Lemma onlyResolves_keeps (c n : Note) (before after : list Note) :
  onlyResolves c before after -> In n before -> n <> c -> In n after.
Proof.
  unfold onlyResolves. induction 1 as [|x x' l l' Hx _ IH]; simpl; intros Hin Hne.
  - destruct Hin.
  - destruct Hin as [<-|Hin].
    + left. destruct Hx as [[-> _]|[_ ->]]; [now destruct Hne | reflexivity].
    + right. now apply IH.
Qed.

Lemma notes_checkNoteHit (ln : nat) (s : State) (c : Note) :
  selected ln s = Some c ->
  notes (checkNoteHit ln s) = markHitById (id c) (notes s).
Proof.
  intros Hsel.
  destruct (Qlt_le_dec (distanceOf c) PERFECT_THRESHOLD) as [Hd|Hd].
  - now rewrite (checkNoteHit_perfect ln s c Hsel Hd).
  - now rewrite (checkNoteHit_good ln s c Hsel Hd).
Qed.

(** A keypress that settles on a note is a PERFECT or a GOOD, with the
    matching stats update. *)
Lemma classification_cases (ln : nat) (s : State) (c : Note) :
  selected ln s = Some c ->
  (judged s (checkNoteHit ln s) = PERFECT
   /\ stats (checkNoteHit ln s) = addPerfect 1000 (stats s))
  \/ (judged s (checkNoteHit ln s) = GOOD
      /\ stats (checkNoteHit ln s) = addGood 500 (stats s)).
Proof.
  intros Hsel.
  destruct (Qlt_le_dec (distanceOf c) PERFECT_THRESHOLD) as [Hd|Hd].
  - left. rewrite (checkNoteHit_perfect ln s c Hsel Hd).
    unfold judged; simpl. rewrite Z.eqb_refl. now split.
  - right. rewrite (checkNoteHit_good ln s c Hsel Hd).
    unfold judged; simpl.
    replace (perfect (stats s) =? perfect (stats s) + 1) with false
      by (symmetry; apply Z.eqb_neq; lia).
    rewrite Z.eqb_refl. now split.
Qed.

(** ** C4: strict thresholds *)

(** C4.  The note that [checkNoteHit] settles on is classified by strict
    comparison of its distance to the judgment line, as [specClassify]
    words it: below [PERFECT_THRESHOLD] the keypress is a PERFECT, from
    [PERFECT_THRESHOLD] on (the threshold itself included) it is a GOOD,
    and the distance of a judged note is always strictly below
    [GOOD_THRESHOLD].  A note at exactly [GOOD_THRESHOLD] fails the window
    test, is never the chosen note, and under unique ids is still in the
    list, unresolved, after the keypress. *)
Theorem classification_is_strict (ln : nat) (s : State) :
  (forall c, selected ln s = Some c ->
     judged s (checkNoteHit ln s) = specClassify (distanceOf c)
     /\ ((distanceOf c < PERFECT_THRESHOLD)%Q ->
        judged s (checkNoteHit ln s) = PERFECT
        /\ judgment (checkNoteHit ln s) = Some PERFECT_LABEL)
     /\ ((PERFECT_THRESHOLD <= distanceOf c)%Q ->
        (distanceOf c < GOOD_THRESHOLD)%Q
        /\ judged s (checkNoteHit ln s) = GOOD
        /\ judgment (checkNoteHit ln s) = Some GOOD_LABEL))
  /\ (forall n, In n (notes s) -> (distanceOf n == GOOD_THRESHOLD)%Q ->
        inHitWindow ln n = false
        /\ selected ln s <> Some n
        /\ (uniqueIds (notes s) -> In n (notes (checkNoteHit ln s)))).
Proof.
  split.
  - intros c Hsel. split; [|split; intros Hd].
    + unfold specClassify.
      destruct (Qltb (distanceOf c) PERFECT_THRESHOLD) eqn:Ep.
      * apply Qltb_lt in Ep. rewrite (checkNoteHit_perfect ln s c Hsel Ep).
        unfold judged; simpl. now rewrite Z.eqb_refl.
      * apply Qltb_ge in Ep. rewrite (checkNoteHit_good ln s c Hsel Ep).
        destruct (selected_In _ _ _ Hsel) as [_ Hw].
        apply inHitWindow_spec in Hw. destruct Hw as (_ & _ & Hg).
        apply Qltb_lt in Hg. rewrite Hg.
        unfold judged; simpl.
        replace (perfect (stats s) =? perfect (stats s) + 1) with false
          by (symmetry; apply Z.eqb_neq; lia).
        now rewrite Z.eqb_refl.
    + rewrite (checkNoteHit_perfect ln s c Hsel Hd).
      unfold judged; simpl. rewrite Z.eqb_refl. now split.
    + destruct (selected_In _ _ _ Hsel) as [_ Hw].
      apply inHitWindow_spec in Hw. destruct Hw as (_ & _ & Hg).
      split; [exact Hg|].
      rewrite (checkNoteHit_good ln s c Hsel Hd).
      unfold judged; simpl.
      replace (perfect (stats s) =? perfect (stats s) + 1) with false
        by (symmetry; apply Z.eqb_neq; lia).
      rewrite Z.eqb_refl. now split.
  - intros n Hin Hd.
    assert (inHitWindow ln n = false) as Hw.
    { destruct (inHitWindow ln n) eqn:E; [|reflexivity].
      apply inHitWindow_spec in E. destruct E as (_ & _ & Hlt).
      rewrite Hd in Hlt. exfalso. apply (Qlt_irrefl _ Hlt). }
    assert (selected ln s <> Some n) as Hns.
    { intros Hsel. destruct (selected_In _ _ _ Hsel) as [_ Hw']. congruence. }
    repeat split; [exact Hw | exact Hns |].
    intros Hu. destruct (selected ln s) as [c|] eqn:Hsel.
    + rewrite (notes_checkNoteHit ln s c Hsel).
      destruct (selected_In _ _ _ Hsel) as [Hc _].
      apply (onlyResolves_keeps c n (notes s)).
      * now apply markHitById_onlyResolves.
      * exact Hin.
      * intros ->. now apply Hns.
    + now rewrite (checkNoteHit_None ln s Hsel).
Qed.

(** ** C9: an unmatched keypress *)

(** C9.  When no unresolved note of the lane is strictly within
    [GOOD_THRESHOLD] of the judgment line, [checkNoteHit] returns the state
    it was given, and a keydown mapped to that lane leaves the notes, the
    stats and the judgment label as they were. *)
Theorem unmatched_keypress_is_noop (ln : nat) (s : State) :
  (forall n, In n (notes s) -> lane n = ln -> hit n = false ->
     ~ (distanceOf n < GOOD_THRESHOLD)%Q) ->
  selected ln s = None
  /\ checkNoteHit ln s = s
  /\ judged s (checkNoteHit ln s) = NONE
  /\ (forall code, keyMap (keyMode s) !! code = Some ln ->
        notes (handleKeyDown code s) = notes s
        /\ stats (handleKeyDown code s) = stats s
        /\ judgment (handleKeyDown code s) = judgment s).
Proof.
  intros Hnone.
  assert (selected ln s = None) as Hsel.
  { apply selected_None. intros n Hin.
    destruct (inHitWindow ln n) eqn:E; [|reflexivity].
    apply inHitWindow_spec in E. destruct E as (Hl & Hh & Hd).
    exfalso. now apply (Hnone n). }
  assert (checkNoteHit ln s = s) as Hid by now apply checkNoteHit_None.
  split; [exact Hsel|]. split; [exact Hid|]. split.
  - rewrite Hid. unfold judged.
    replace (perfect (stats s) =? perfect (stats s) + 1) with false
      by (symmetry; apply Z.eqb_neq; lia).
    replace (good (stats s) =? good (stats s) + 1) with false
      by (symmetry; apply Z.eqb_neq; lia).
    reflexivity.
  - intros code Hmap. unfold handleKeyDown. rewrite Hmap.
    destruct (gameState s); try (now repeat split).
    destruct (decide (ln ∈ pressedKeys s)); [now repeat split|].
    rewrite checkNoteHit_None; [now repeat split|exact Hsel].
Qed.

(** ** C1: the nearest qualifying note is the one resolved *)

(** C1.  If some unresolved note of the lane is strictly within
    [GOOD_THRESHOLD] of the judgment line, [checkNoteHit] resolves one such
    note [c] whose distance is minimal among them; position by position the
    list of notes is unchanged except that [c] has become [markHit c], so
    every other qualifying note is still there, unresolved.  Ids are unique
    in every chart, which is what makes marking by id single out [c]. *)
Theorem nearest_note_wins (ln : nat) (s : State) :
  uniqueIds (notes s) ->
  (exists n, In n (notes s) /\ lane n = ln /\ hit n = false
             /\ (distanceOf n < GOOD_THRESHOLD)%Q) ->
  exists c,
    In c (notes s) /\ lane c = ln /\ hit c = false
    /\ (distanceOf c < GOOD_THRESHOLD)%Q
    /\ (forall n, In n (notes s) -> lane n = ln -> hit n = false ->
          (distanceOf n < GOOD_THRESHOLD)%Q ->
          (distanceOf c <= distanceOf n)%Q)
    /\ onlyResolves c (notes s) (notes (checkNoteHit ln s))
    /\ (forall n, In n (notes s) -> n <> c ->
          In n (notes (checkNoteHit ln s))).
Proof.
  intros Hu (n0 & Hin0 & Hl0 & Hh0 & Hd0).
  destruct (selected ln s) as [c|] eqn:Hsel.
  - destruct (selected_In _ _ _ Hsel) as [Hc Hw].
    pose proof Hw as Hw'. apply inHitWindow_spec in Hw'.
    destruct Hw' as (Hl & Hh & Hd).
    assert (onlyResolves c (notes s) (notes (checkNoteHit ln s))) as Hres.
    { rewrite (notes_checkNoteHit ln s c Hsel).
      now apply markHitById_onlyResolves. }
    exists c. repeat split; try assumption.
    + intros n Hin Hln Hhn Hdn. apply (selected_min ln s c n Hsel Hin).
      apply inHitWindow_spec. now repeat split.
    + intros n Hin Hne. now apply (onlyResolves_keeps c n (notes s)).
  - exfalso. pose proof (proj1 (selected_None ln s) Hsel n0 Hin0) as Hf.
    assert (inHitWindow ln n0 = true) as Ht
      by (apply inHitWindow_spec; now repeat split).
    congruence.
Qed.

(** ** C2: the score increment of a hit *)

(** C2.  A keypress that settles on a note is a PERFECT or a GOOD, raises
    the combo by one and adds [baseValue * max 1 (floor (combo / 10) + 1)]
    to the score, with the combo read before the hit; at combo 10 a PERFECT
    adds 2000. *)
Theorem score_increment (ln : nat) (s : State) (c : Note) :
  selected ln s = Some c ->
  judged s (checkNoteHit ln s) <> NONE
  /\ score (stats (checkNoteHit ln s)) =
       score (stats s)
       + baseValue (judged s (checkNoteHit ln s))
         * Z.max 1 (combo (stats s) / 10 + 1)
  /\ combo (stats (checkNoteHit ln s)) = combo (stats s) + 1
  /\ (judged s (checkNoteHit ln s) = PERFECT -> combo (stats s) = 10 ->
        score (stats (checkNoteHit ln s)) = score (stats s) + 1000 * 2).
Proof.
  intros Hsel.
  destruct (classification_cases ln s c Hsel) as [(Hj & Hst)|(Hj & Hst)];
    rewrite Hj, Hst; simpl; unfold comboTier.
  - repeat split; try discriminate; try reflexivity.
    intros _ ->. reflexivity.
  - repeat split; try discriminate; try reflexivity.
Qed.

(** Ten PERFECTs in a row are worth 1000 each, the eleventh 2000. *)
Lemma eleven_perfects :
  let s := playOf (onLine 0 11) initialStats in
  stats (run (taps 10) s) = mkStats 10000 10 0 10 0 0
  /\ stats (run (taps 11) s) = mkStats 12000 11 0 11 0 0.
Proof. vm_compute. now split. Qed.

(** ** The frame update leaves the other cells alone *)

Lemma missSweep_cells (rendered : list Note) (st : State) :
  gameState (missSweep rendered st) = gameState st
  /\ pressedKeys (missSweep rendered st) = pressedKeys st
  /\ judgment (missSweep rendered st) = judgment st
  /\ keyMode (missSweep rendered st) = keyMode st
  /\ startTimeRef (missSweep rendered st) = startTimeRef st
  /\ pauseTimeRef (missSweep rendered st) = pauseTimeRef st.
Proof.
  unfold missSweep. revert st.
  induction rendered as [|r rendered IH]; intros st; simpl.
  - repeat split.
  - destruct (IH (missOne st r)) as (H1 & H2 & H3 & H4 & H5 & H6).
    rewrite H1, H2, H3, H4, H5, H6.
    unfold missOne. destruct (isMissed r); repeat split.
Qed.

Lemma gameLoop_cells (t : Q) (s : State) :
  gameState (gameLoop t s) = gameState s
  /\ pressedKeys (gameLoop t s) = pressedKeys s
  /\ judgment (gameLoop t s) = judgment s
  /\ keyMode (gameLoop t s) = keyMode s
  /\ startTimeRef (gameLoop t s) = startOf t s
  /\ pauseTimeRef (gameLoop t s) = pauseTimeRef s.
Proof.
  unfold gameLoop.
  match goal with |- context [missSweep ?r ?st] =>
    destruct (missSweep_cells r st) as (H1 & H2 & H3 & H4 & H5 & H6) end.
  rewrite H1, H2, H3, H4, H5, H6. repeat split.
Qed.

(** ** C3: the pausable clock *)

(** Pausing at the instant of a frame stores that frame's elapsed time. *)
Lemma pause_stores_elapsed (t : Q) (s : State) :
  gameState s = playing ->
  let s2 := togglePause t (gameLoop t s) in
  gameState s2 = paused /\ (pauseTimeRef s2 == elapsedOf t s)%Q.
Proof.
  intros Hp.
  destruct (gameLoop_cells t s) as (Hg & _ & _ & _ & Hs & Hpt).
  unfold togglePause. rewrite Hg, Hp, Hs.
  destruct (Qeq_bool (startOf t s) 0) eqn:E; simpl.
  - split; [reflexivity|]. rewrite Hpt.
    apply Qeq_bool_iff in E. unfold elapsedOf.
    revert E. unfold startOf.
    destruct (Qeq_bool (startTimeRef s) 0) eqn:E0; intros E.
    + lra.
    + apply Qeq_bool_neq in E0. contradiction.
  - split; [reflexivity|]. unfold elapsedOf. reflexivity.
Qed.

(** Pausing at [t] without a frame at [t]: the stored offset is what a
    frame at [t] would have read. *)
Lemma pause_stores_reading (t : Q) (s : State) :
  gameState s = playing ->
  gameState (togglePause t s) = paused
  /\ (pauseTimeRef (togglePause t s) == elapsedOf t s)%Q.
Proof.
  intros Hp. unfold togglePause. rewrite Hp.
  unfold elapsedOf, startOf.
  destruct (Qeq_bool (startTimeRef s) 0) eqn:E; simpl.
  - split; [reflexivity|]. lra.
  - split; reflexivity.
Qed.

(** The first frame after a resume reads the stored pause offset. *)
Lemma resume_reads_offset (now t' : Q) (s : State) :
  gameState s = paused ->
  gameState (togglePause now s) = playing
  /\ (elapsedOf t' (togglePause now s) == pauseTimeRef s)%Q.
Proof.
  intros Hp. unfold togglePause. rewrite Hp. simpl.
  split; [reflexivity|].
  unfold elapsedOf, startOf. simpl. lra.
Qed.

(** C3.  In a playing session the elapsed time that a frame reads at the
    instant [t] of a pause is the elapsed time that the first frame after
    the matching resume reads, whenever that frame comes, both when the
    frame at [t] is only read off the clock and when it has run; and this
    stays so through any number of further pause / resume cycles, each
    pausing at the instant of the preceding frame. *)
Theorem pause_resume_preserves_elapsed (s : State) (t : Q) :
  gameState s = playing ->
  (forall now t',
     (elapsedOf t' (togglePause now (togglePause t s)) == elapsedOf t s)%Q)
  /\ (forall now t',
     (elapsedOf t' (togglePause now (togglePause t (gameLoop t s)))
      == elapsedOf t s)%Q)
  /\ (forall ts, (fst (pauseResumeCycles ts t s) == elapsedOf t s)%Q).
Proof.
  intros Hp. split; [|split].
  - intros now t'.
    destruct (pause_stores_reading t s Hp) as [Hpaused Hoff].
    destruct (resume_reads_offset now t' _ Hpaused) as [_ He].
    rewrite He. exact Hoff.
  - intros now t'.
    destruct (pause_stores_elapsed t s Hp) as [Hpaused Hoff].
    destruct (resume_reads_offset now t' _ Hpaused) as [_ He].
    rewrite He. exact Hoff.
  - intros ts. revert t s Hp.
    induction ts as [|t' ts IH]; intros t s Hp; simpl.
    + reflexivity.
    + destruct (pause_stores_elapsed t s Hp) as [Hpaused Hoff].
      destruct (resume_reads_offset t' t' _ Hpaused) as [Hplay He].
      rewrite (IH t' _ Hplay). rewrite He. exact Hoff.
Qed.

(** ** The miss sweep in closed form *)

Lemma isMissed_spec (n : Note) :
  isMissed n = true
  <-> hit n = false /\ (JUDGMENT_LINE_Y + GOOD_THRESHOLD < currentY n)%Q.
Proof.
  unfold isMissed. rewrite andb_true_iff, Qltb_lt, negb_true_iff. tauto.
Qed.

Lemma markHit_resolved (n : Note) : hit n = true -> markHit n = n.
Proof. destruct n; simpl; intros ->; reflexivity. Qed.

Lemma moveNote_resolved (e sp d : Q) (n : Note) :
  hit n = true -> moveNote e sp d n = n.
Proof. unfold moveNote. intros ->. reflexivity. Qed.

Lemma moveNote_keeps (e sp d : Q) (n : Note) :
  id (moveNote e sp d n) = id n
  /\ lane (moveNote e sp d n) = lane n
  /\ startTime (moveNote e sp d n) = startTime n
  /\ hit (moveNote e sp d n) = hit n.
Proof. unfold moveNote. destruct (hit n) eqn:E; simpl; auto. Qed.

Lemma missSweep_notes (rendered : list Note) (st : State) :
  notes (missSweep rendered st) =
  map (fun n => if sweptId rendered n then markHit n else n) (notes st).
Proof.
  unfold missSweep. revert st.
  induction rendered as [|r rendered IH]; intros st; simpl.
  - symmetry. apply map_id.
  - rewrite IH. unfold missOne.
    destruct (isMissed r) eqn:Em; simpl.
    + unfold markHitById. rewrite map_map. apply map_ext. intros n.
      rewrite (Nat.eqb_sym (id r) (id n)).
      destruct (Nat.eqb (id n) (id r)) eqn:E; simpl.
      * destruct (sweptId rendered (markHit n)); [|reflexivity].
        destruct n; reflexivity.
      * reflexivity.
    + reflexivity.
Qed.

Lemma missSweep_stats (rendered : list Note) (st : State) :
  stats (missSweep rendered st) =
  Nat.iter (length (List.filter isMissed rendered)) addMiss (stats st).
Proof.
  unfold missSweep. revert st.
  induction rendered as [|r rendered IH]; intros st; simpl.
  - reflexivity.
  - rewrite IH. unfold missOne. destruct (isMissed r); simpl.
    + generalize (length (List.filter isMissed rendered)). intros k.
      induction k as [|k IHk]; simpl; [reflexivity|]. now rewrite IHk.
    + reflexivity.
Qed.

Lemma iter_addMiss (k : nat) (st : GameStats) :
  Nat.iter k addMiss st =
  match k with
  | O => st
  | S k' =>
      mkStats (score st) 0
        (match k' with
         | O => Z.max (maxCombo st) (combo st)
         | S _ => Z.max (Z.max (maxCombo st) (combo st)) 0
         end)
        (perfect st) (good st) (miss st + Z.of_nat k)
  end.
Proof.
  induction k as [|k IH]; [reflexivity|].
  change (Nat.iter (S k) addMiss st) with (addMiss (Nat.iter k addMiss st)).
  rewrite IH. destruct k as [|[|k]]; unfold addMiss; simpl; f_equal; lia.
Qed.

Lemma gameLoop_notes (t : Q) (s : State) :
  notes (gameLoop t s) =
  map (fun n =>
         let n' :=
           moveNote (elapsedOf t s) (speedMultiplier s)
             (diffSpeedMultiplier (DIFFICULTY_SETTINGS (difficulty s))) n in
         if sweptId (notes s) n then markHit n' else n')
      (notes s).
Proof.
  unfold gameLoop. rewrite missSweep_notes. simpl. rewrite map_map.
  apply map_ext. intros n. unfold sweptId.
  destruct (moveNote_keeps (elapsedOf t s) (speedMultiplier s)
              (diffSpeedMultiplier (DIFFICULTY_SETTINGS (difficulty s))) n)
    as (-> & _).
  reflexivity.
Qed.

Lemma gameLoop_stats (t : Q) (s : State) :
  stats (gameLoop t s) =
  Nat.iter (length (List.filter isMissed (notes s))) addMiss (stats s).
Proof. unfold gameLoop. now rewrite missSweep_stats. Qed.

Lemma sweptId_self (l : list Note) (n : Note) :
  In n l -> isMissed n = true -> sweptId l n = true.
Proof.
  intros Hin Hm. unfold sweptId. apply existsb_exists.
  exists n. split; [exact Hin|]. now rewrite Hm, Nat.eqb_refl.
Qed.

Lemma Forall2_map_same {A B : Type} (R : A -> B -> Prop) (f : A -> B)
    (l : list A) :
  (forall a, In a l -> R a (f a)) -> Forall2 R l (map f l).
Proof.
  induction l as [|x l IH]; simpl; intros H; constructor.
  - apply H. now left.
  - apply IH. intros a Ha. apply H. now right.
Qed.

(** ** The miss detector on the stored positions *)

(** One frame, in terms of the positions stored when it runs (those the
    previous frame wrote): position by position, a note that is unresolved
    and whose stored [currentY] is beyond [JUDGMENT_LINE_Y + GOOD_THRESHOLD]
    comes out resolved; the miss counter grows by the
    number of such notes; if there is at least one, the combo is 0
    afterwards and [maxCombo] (a non-negative count) is the larger of the
    previous [maxCombo] and the combo before the reset.  Note by note, the
    stats go through one [addMiss] per such note, each of which adds one
    miss, zeroes the combo and raises [maxCombo] to the combo it zeroes.
    Score and hit counters are untouched, and with no such note the stats
    do not change at all. *)
Lemma miss_sweep_stored (t : Q) (s : State) :
  Forall2
    (fun n n' =>
       id n' = id n
       /\ (hit n = false ->
           (JUDGMENT_LINE_Y + GOOD_THRESHOLD < currentY n)%Q ->
           hit n' = true))
    (notes s) (notes (gameLoop t s))
  /\ miss (stats (gameLoop t s)) =
       miss (stats s) + Z.of_nat (length (List.filter isMissed (notes s)))
  /\ (List.filter isMissed (notes s) <> [] -> 0 <= maxCombo (stats s) ->
        combo (stats (gameLoop t s)) = 0
        /\ maxCombo (stats (gameLoop t s)) =
             Z.max (maxCombo (stats s)) (combo (stats s)))
  /\ (List.filter isMissed (notes s) = [] -> stats (gameLoop t s) = stats s)
  /\ stats (gameLoop t s) =
       Nat.iter (length (List.filter isMissed (notes s))) addMiss (stats s)
  /\ (forall st, miss (addMiss st) = miss st + 1
                 /\ combo (addMiss st) = 0
                 /\ maxCombo (addMiss st) = Z.max (maxCombo st) (combo st))
  /\ score (stats (gameLoop t s)) = score (stats s)
  /\ perfect (stats (gameLoop t s)) = perfect (stats s)
  /\ good (stats (gameLoop t s)) = good (stats s).
Proof.
  split.
  { rewrite gameLoop_notes. apply Forall2_map_same. intros n Hin. cbv zeta.
    destruct (moveNote_keeps (elapsedOf t s) (speedMultiplier s)
                (diffSpeedMultiplier (DIFFICULTY_SETTINGS (difficulty s))) n)
      as (Hid & _ & _ & Hh).
    split.
    - destruct (sweptId (notes s) n); simpl; exact Hid.
    - intros Hu Hy.
      rewrite (sweptId_self (notes s) n Hin); [reflexivity|].
      apply isMissed_spec. now split. }
  rewrite gameLoop_stats, iter_addMiss.
  assert (forall st, miss (addMiss st) = miss st + 1
                     /\ combo (addMiss st) = 0
                     /\ maxCombo (addMiss st) = Z.max (maxCombo st) (combo st))
    as Hone by (intros st; now repeat split).
  destruct (List.filter isMissed (notes s)) as [|m [|m' ms]]; simpl.
  - split; [lia|]. split; [intros Hne; now destruct Hne|]. now repeat split.
  - split; [reflexivity|]. split; [intros _ _; now split|].
    split; [discriminate|]. now repeat split.
  - split; [reflexivity|]. split; [intros _ Hmc; split; [reflexivity|lia]|].
    split; [discriminate|]. now repeat split.
Qed.

(** The positions the sweep reads are the rendered ones, written by the
    previous frame: a note that this frame moves beyond the window is
    resolved by the next frame. *)
Lemma miss_sweep_reads_rendered_positions :
  let s := setStartTimeRef 1000 (playOf [mkNote 0 0 1000 570 false] initialStats) in
  let s1 := gameLoop 4000 s in
  map currentY (notes s1) = [((4000 - 1000 - 1000) / 1000 * 350 * 1 * 1)%Q]
  /\ map hit (notes s1) = [false]
  /\ map hit (notes (gameLoop 4000 s1)) = [true]
  /\ miss (stats s1) = 0
  /\ miss (stats (gameLoop 4000 s1)) = 1.
Proof. vm_compute. now repeat split. Qed.

(** ** Resolved notes, ids and counts *)

Lemma ids_markHitById (target : nat) (l : list Note) :
  map id (markHitById target l) = map id l.
Proof.
  unfold markHitById. rewrite map_map. apply map_ext. intros n.
  destruct (Nat.eqb (id n) target); reflexivity.
Qed.

Lemma markHitById_absent (target : nat) (l : list Note) :
  ~ In target (map id l) -> markHitById target l = l.
Proof.
  unfold markHitById. induction l as [|x l IH]; simpl; intros Hn.
  - reflexivity.
  - destruct (Nat.eqb (id x) target) eqn:E.
    + apply Nat.eqb_eq in E. exfalso. apply Hn. now left.
    + f_equal. apply IH. intros H. apply Hn. now right.
Qed.

Lemma resolvedCount_cons (x : Note) (l : list Note) :
  resolvedCount (x :: l) = (if hit x then 1 else 0) + resolvedCount l.
Proof.
  unfold resolvedCount. simpl. destruct (hit x); simpl; lia.
Qed.

Lemma resolvedCount_markHitById (l : list Note) (c : Note) :
  uniqueIds l -> In c l -> hit c = false ->
  resolvedCount (markHitById (id c) l) = resolvedCount l + 1.
Proof.
  unfold uniqueIds. induction l as [|x l IH]; simpl; intros Hnd Hin Hh.
  - destruct Hin.
  - inversion Hnd as [|? ? Hnotin Hnd']; subst.
    change (map (fun note => if Nat.eqb (id note) (id c) then markHit note else note) l)
      with (markHitById (id c) l).
    destruct (Nat.eqb (id x) (id c)) eqn:E.
    + apply Nat.eqb_eq in E.
      assert (x = c) as ->.
      { apply (uniqueIds_inj (x :: l)); [exact Hnd|now left|exact Hin|exact E]. }
      rewrite markHitById_absent by exact Hnotin.
      rewrite !resolvedCount_cons. simpl. rewrite Hh. lia.
    + destruct Hin as [->|Hin]; [rewrite Nat.eqb_refl in E; discriminate|].
      rewrite !resolvedCount_cons. rewrite (IH Hnd' Hin Hh). lia.
Qed.

Lemma sweptId_unique (l : list Note) (n : Note) :
  uniqueIds l -> In n l -> sweptId l n = isMissed n.
Proof.
  intros Hu Hin. destruct (isMissed n) eqn:Em.
  - now apply sweptId_self.
  - destruct (sweptId l n) eqn:Es; [|reflexivity].
    unfold sweptId in Es. apply existsb_exists in Es.
    destruct Es as (r & Hr & Hb). apply andb_true_iff in Hb.
    destruct Hb as [Hm Hid]. apply Nat.eqb_eq in Hid.
    rewrite (uniqueIds_inj l r n Hu Hr Hin Hid) in Hm. congruence.
Qed.

Lemma ids_gameLoop (t : Q) (s : State) :
  map id (notes (gameLoop t s)) = map id (notes s).
Proof.
  rewrite gameLoop_notes, map_map. apply map_ext. intros n. cbv zeta.
  destruct (moveNote_keeps (elapsedOf t s) (speedMultiplier s)
              (diffSpeedMultiplier (DIFFICULTY_SETTINGS (difficulty s))) n)
    as (Hid & _).
  destruct (sweptId (notes s) n); simpl; exact Hid.
Qed.

Lemma resolvedCount_swept (e sp d : Q) (l : list Note) :
  resolvedCount
    (map (fun n => if isMissed n then markHit (moveNote e sp d n)
                   else moveNote e sp d n) l)
  = resolvedCount l + Z.of_nat (length (List.filter isMissed l)).
Proof.
  induction l as [|x l IH]; [reflexivity|].
  cbn [map List.filter]. rewrite !resolvedCount_cons, IH.
  destruct (moveNote_keeps e sp d x) as (_ & _ & _ & Hh).
  destruct (isMissed x) eqn:Em.
  - apply isMissed_spec in Em. destruct Em as [Hx _].
    rewrite Hx. cbn [markHit hit length]. lia.
  - rewrite Hh. lia.
Qed.

Lemma resolvedCount_gameLoop (t : Q) (s : State) :
  uniqueIds (notes s) ->
  resolvedCount (notes (gameLoop t s)) =
  resolvedCount (notes s) + Z.of_nat (length (List.filter isMissed (notes s))).
Proof.
  intros Hu. rewrite gameLoop_notes.
  rewrite <- (resolvedCount_swept (elapsedOf t s) (speedMultiplier s)
                (diffSpeedMultiplier (DIFFICULTY_SETTINGS (difficulty s)))).
  f_equal. apply map_ext_in. intros n Hin. cbv zeta.
  now rewrite (sweptId_unique (notes s) n Hu Hin).
Qed.

Lemma countedNotes_gameLoop (t : Q) (s : State) :
  countedNotes (stats (gameLoop t s)) =
  countedNotes (stats s) + Z.of_nat (length (List.filter isMissed (notes s))).
Proof.
  rewrite gameLoop_stats, iter_addMiss. unfold countedNotes.
  destruct (length (List.filter isMissed (notes s))); simpl; lia.
Qed.

(** What a keydown does to the notes and the counters. *)
Lemma handleKeyDown_effect (code : string) (s : State) :
  (notes (handleKeyDown code s) = notes s
   /\ stats (handleKeyDown code s) = stats s)
  \/ (exists ln c,
        selected ln s = Some c
        /\ notes (handleKeyDown code s) = markHitById (id c) (notes s)
        /\ countedNotes (stats (handleKeyDown code s)) =
             countedNotes (stats s) + 1).
Proof.
  unfold handleKeyDown.
  destruct (gameState s); try (left; now split).
  destruct (keyMap (keyMode s) !! code) as [ln|]; [|left; now split].
  destruct (decide (ln ∈ pressedKeys s)); [left; now split|].
  set (s1 := setPressedKeys _ s).
  destruct (selected ln s) as [c|] eqn:Hsel.
  - right. exists ln, c. split; [exact Hsel|].
    assert (selected ln s1 = Some c) as Hsel1 by exact Hsel.
    split.
    + now rewrite (notes_checkNoteHit ln s1 c Hsel1).
    + destruct (classification_cases ln s1 c Hsel1) as [(_ & ->)|(_ & ->)];
        unfold countedNotes; simpl; lia.
  - left. assert (selected ln s1 = None) as Hsel1 by exact Hsel.
    rewrite (checkNoteHit_None ln s1 Hsel1). now split.
Qed.

Lemma step_other_cells (e : Event) (s : State) :
  (forall code, e <> KeyDown code) -> (forall t, e <> Frame t) ->
  notes (step e s) = notes s /\ stats (step e s) = stats s.
Proof.
  intros Hk Hf. destruct e as [code|code|t|now|]; simpl.
  - now destruct (Hk code).
  - unfold handleKeyUp. destruct (keyMap (keyMode s) !! code); now split.
  - now destruct (Hf t).
  - unfold togglePause. destruct (gameState s); try now split.
    destruct (Qeq_bool (startTimeRef s) 0); now split.
  - now split.
Qed.

Lemma step_sessionInv (e : Event) (s : State) :
  sessionInv s -> sessionInv (step e s).
Proof.
  intros [Hu Hc]. unfold sessionInv.
  destruct e as [code|code|t|now|].
  - simpl. destruct (handleKeyDown_effect code s)
      as [[Hn Hs]|(ln & c & Hsel & Hn & Hs)].
    + now rewrite Hn, Hs.
    + destruct (selected_In _ _ _ Hsel) as [Hin Hw].
      apply inHitWindow_spec in Hw. destruct Hw as (_ & Hh & _).
      rewrite Hn, Hs. split.
      * unfold uniqueIds. now rewrite ids_markHitById.
      * rewrite (resolvedCount_markHitById _ c Hu Hin Hh). lia.
  - destruct (step_other_cells (KeyUp code) s) as [-> ->];
      [discriminate|discriminate|now split].
  - simpl. destruct (decide (gameState s = playing)); [|now split].
    split.
    + unfold uniqueIds. now rewrite ids_gameLoop.
    + rewrite countedNotes_gameLoop, (resolvedCount_gameLoop t s Hu). lia.
  - destruct (step_other_cells (TogglePause now) s) as [-> ->];
      [discriminate|discriminate|now split].
  - destruct (step_other_cells JudgmentTimeout s) as [-> ->];
      [discriminate|discriminate|now split].
Qed.

Lemma run_sessionInv (es : list Event) (s : State) :
  sessionInv s -> sessionInv (run es s).
Proof.
  unfold run. revert s. induction es as [|e es IH]; intros s H; simpl.
  - exact H.
  - apply IH. now apply step_sessionInv.
Qed.

Lemma freshSession_inv (s : State) : freshSession s -> sessionInv s.
Proof.
  intros (_ & Hst & Hall & Hu). split; [exact Hu|].
  rewrite Hst. unfold countedNotes, resolvedCount. simpl. clear Hu Hst.
  induction Hall as [|x l Hx _ IH]; [reflexivity|].
  simpl. rewrite Hx. exact IH.
Qed.

Lemma Forall2_same {A : Type} (R : A -> A -> Prop) (l : list A) :
  (forall a, R a a) -> Forall2 R l l.
Proof. intros H. induction l; constructor; auto. Qed.

(** ** C7: resolution is final *)

(** C7.  A resolved note fails both the hit-window test and the miss test.
    Whatever the event (key down, key up, frame, pause toggle, label
    timeout), every note that is resolved before it is, at its position in
    the list, the very same record after it: same position, still
    resolved.  And from a fresh session on, after any sequence of events,
    perfect + good + miss equals the number of resolved notes, so no note
    is counted twice. *)
Theorem resolved_is_final :
  (forall n ln, hit n = true -> inHitWindow ln n = false /\ isMissed n = false)
  /\ (forall e s,
        Forall2 (fun n n' => hit n = true -> n' = n)
          (notes s) (notes (step e s)))
  /\ (forall es s0, freshSession s0 ->
        countedNotes (stats (run es s0)) = resolvedCount (notes (run es s0))).
Proof.
  split; [|split].
  - intros n ln Hh. unfold inHitWindow, isMissed. rewrite Hh. simpl.
    rewrite andb_false_r. simpl. rewrite andb_false_r. now split.
  - intros e s. destruct e as [code|code|t|now|].
    + simpl. destruct (handleKeyDown_effect code s)
        as [[Hn _]|(ln & c & _ & Hn & _)]; rewrite Hn.
      * apply Forall2_same. auto.
      * unfold markHitById. apply Forall2_map_same. intros n _ Hh.
        destruct (Nat.eqb (id n) (id c)); [now apply markHit_resolved|reflexivity].
    + destruct (step_other_cells (KeyUp code) s) as [-> _];
        [discriminate|discriminate|]. apply Forall2_same. auto.
    + simpl. destruct (decide (gameState s = playing));
        [|apply Forall2_same; auto].
      rewrite gameLoop_notes. apply Forall2_map_same. intros n _ Hh. cbv zeta.
      rewrite (moveNote_resolved _ _ _ n Hh).
      destruct (sweptId (notes s) n); [now apply markHit_resolved|reflexivity].
    + destruct (step_other_cells (TogglePause now) s) as [-> _];
        [discriminate|discriminate|]. apply Forall2_same. auto.
    + apply Forall2_same. auto.
  - intros es s0 Hf. apply (run_sessionInv es s0 (freshSession_inv s0 Hf)).
Qed.

(** ** Keyboard gating *)

Lemma checkNoteHit_cells (ln : nat) (s : State) :
  gameState (checkNoteHit ln s) = gameState s
  /\ pressedKeys (checkNoteHit ln s) = pressedKeys s
  /\ keyMode (checkNoteHit ln s) = keyMode s.
Proof.
  unfold checkNoteHit.
  destruct (List.filter (inHitWindow ln) (notes s)) as [|f r]; [now repeat split|].
  cbv zeta.
  destruct (Qltb (distanceOf (closestOf f r)) PERFECT_THRESHOLD);
    [now repeat split|].
  destruct (Qltb (distanceOf (closestOf f r)) GOOD_THRESHOLD); now repeat split.
Qed.

Lemma handleKeyDown_pressed (code : string) (s : State) :
  keyMode (handleKeyDown code s) = keyMode s
  /\ pressedKeys s ⊆ pressedKeys (handleKeyDown code s).
Proof.
  unfold handleKeyDown.
  destruct (gameState s); try (now split).
  destruct (keyMap (keyMode s) !! code) as [ln|]; [|now split].
  destruct (decide (ln ∈ pressedKeys s)); [now split|].
  match goal with |- context [checkNoteHit ln ?st] =>
    destruct (checkNoteHit_cells ln st) as (_ & -> & ->) end.
  simpl. split; [reflexivity|set_solver].
Qed.

Lemma step_keyMode (e : Event) (s : State) : keyMode (step e s) = keyMode s.
Proof.
  destruct e as [code|code|t|now|]; simpl.
  - apply handleKeyDown_pressed.
  - unfold handleKeyUp. now destruct (keyMap (keyMode s) !! code).
  - destruct (decide (gameState s = playing)); [|reflexivity].
    apply gameLoop_cells.
  - unfold togglePause. destruct (gameState s); try reflexivity.
    now destruct (Qeq_bool (startTimeRef s) 0).
  - reflexivity.
Qed.

Lemma step_stays_pressed (e : Event) (s : State) (ln : nat) :
  ln ∈ pressedKeys s -> releases (keyMode s) ln e = false ->
  ln ∈ pressedKeys (step e s).
Proof.
  intros Hin Hrel. destruct e as [code|code|t|now|]; simpl.
  - destruct (handleKeyDown_pressed code s) as [_ Hsub]. set_solver.
  - unfold handleKeyUp. simpl in Hrel. apply bool_decide_eq_false in Hrel.
    destruct (keyMap (keyMode s) !! code) as [ln'|] eqn:E; [|exact Hin].
    simpl. assert (ln' <> ln) by congruence. set_solver.
  - destruct (decide (gameState s = playing)); [|exact Hin].
    destruct (gameLoop_cells t s) as (_ & -> & _). exact Hin.
  - unfold togglePause. destruct (gameState s); try exact Hin.
    now destruct (Qeq_bool (startTimeRef s) 0).
  - exact Hin.
Qed.

Lemma step_held_key_noop (e : Event) (s : State) (ln : nat) :
  ln ∈ pressedKeys s -> presses (keyMode s) ln e = true -> step e s = s.
Proof.
  intros Hin Hp. destruct e as [code|code|t|now|]; simpl in Hp; try discriminate.
  apply bool_decide_eq_true in Hp. simpl. unfold handleKeyDown. rewrite Hp.
  destruct (gameState s); try reflexivity.
  destruct (decide (ln ∈ pressedKeys s)); [reflexivity|contradiction].
Qed.

Lemma checkNoteHit_pressedKeys_irrelevant (ln : nat) (f : gset nat -> gset nat)
    (s : State) :
  notes (checkNoteHit ln (setPressedKeys f s)) = notes (checkNoteHit ln s)
  /\ stats (checkNoteHit ln (setPressedKeys f s)) = stats (checkNoteHit ln s).
Proof.
  unfold checkNoteHit. cbn [notes setPressedKeys].
  destruct (List.filter (inHitWindow ln) (notes s)) as [|x r]; [now split|].
  cbv zeta.
  destruct (Qltb (distanceOf (closestOf x r)) PERFECT_THRESHOLD); [now split|].
  destruct (Qltb (distanceOf (closestOf x r)) GOOD_THRESHOLD); now split.
Qed.

(** ** C10: when a keydown is judged *)

(** C10.  A keydown is void unless the session is playing and its code
    maps to a lane that is not in the pressed-key set; when both hold, the
    lane enters the set and the keydown is judged by [checkNoteHit].  While
    the lane stays in the set, that is along any sequence of events
    without a keyup for the lane, the lane remains pressed and every
    keydown for it is void: the run equals the run with those keydowns
    left out.  A keyup for the lane takes it out of the set again. *)
Theorem keydown_gating :
  (forall code s, gameState s <> playing -> handleKeyDown code s = s)
  /\ (forall code s ln, keyMap (keyMode s) !! code = Some ln ->
        ln ∈ pressedKeys s -> handleKeyDown code s = s)
  /\ (forall code s ln, gameState s = playing ->
        keyMap (keyMode s) !! code = Some ln -> ln ∉ pressedKeys s ->
        handleKeyDown code s =
          checkNoteHit ln (setPressedKeys (fun prev => prev ∪ {[ ln ]}) s)
        /\ ln ∈ pressedKeys (handleKeyDown code s))
  /\ (forall es s ln,
        ln ∈ pressedKeys s ->
        Forall (fun e => releases (keyMode s) ln e = false) es ->
        ln ∈ pressedKeys (run es s)
        /\ run es s =
           run (List.filter (fun e => negb (presses (keyMode s) ln e)) es) s)
  /\ (forall code s ln, keyMap (keyMode s) !! code = Some ln ->
        ln ∉ pressedKeys (handleKeyUp code s)).
Proof.
  split; [|split; [|split; [|split]]].
  - intros code s Hne. unfold handleKeyDown.
    destruct (gameState s); try reflexivity. now destruct Hne.
  - intros code s ln Hmap Hin. unfold handleKeyDown. rewrite Hmap.
    destruct (gameState s); try reflexivity.
    destruct (decide (ln ∈ pressedKeys s)); [reflexivity|contradiction].
  - intros code s ln Hp Hmap Hnin. unfold handleKeyDown. rewrite Hp, Hmap.
    destruct (decide (ln ∈ pressedKeys s)) as [Hin|_]; [contradiction|].
    split; [reflexivity|].
    rewrite (proj1 (proj2 (checkNoteHit_cells ln _))). simpl. set_solver.
  - intros es. induction es as [|e es IH]; intros s ln Hin Hall.
    + now split.
    + inversion Hall as [|? ? He Hes]; subst.
      cbn [List.filter]. destruct (presses (keyMode s) ln e) eqn:Hp.
      * change (run (e :: es) s) with (run es (step e s)).
        rewrite (step_held_key_noop e s ln Hin Hp). cbn [negb].
        now apply IH.
      * cbn [negb].
        change (run (e :: es) s) with (run es (step e s)).
        change (run (e :: ?l) s) with (run l (step e s)).
        pose proof (step_stays_pressed e s ln Hin He) as Hin'.
        pose proof (step_keyMode e s) as Hkm.
        rewrite <- Hkm. apply IH; [exact Hin'|]. now rewrite Hkm.
  - intros code s ln Hmap. unfold handleKeyUp. rewrite Hmap. simpl.
    apply not_elem_of_difference. right. now apply elem_of_singleton_2.
Qed.

(** ** The sort of the chart *)

Lemma byStartTime_le (a b : Note) :
  Qle_bool (byStartTime a b) 0 = true <-> (startTime a <= startTime b)%Q.
Proof.
  rewrite Qle_bool_iff. unfold byStartTime. split; intros H; lra.
Qed.

Lemma insertBy_In (cmp : Note -> Note -> Q) (x y : Note) (l : list Note) :
  In y (insertBy cmp x l) <-> y = x \/ In y l.
Proof.
  induction l as [|z l IH]; simpl.
  - split; intros [H|H]; auto.
  - destruct (Qle_bool (cmp x z) 0); simpl.
    + split; intros [H|H]; auto.
    + rewrite IH. split; intros H; tauto.
Qed.

Lemma insertBy_chronological (x : Note) (l : list Note) :
  chronological l -> chronological (insertBy byStartTime x l).
Proof.
  unfold chronological. induction 1 as [|z l Hs IH Hz]; simpl.
  - constructor; constructor.
  - destruct (Qle_bool (byStartTime x z) 0) eqn:E.
    + apply byStartTime_le in E. constructor.
      * now constructor.
      * constructor; [exact E|].
        eapply List.Forall_impl; [|exact Hz]. intros w Hw. cbv beta in *.
        eapply Qle_trans; eassumption.
    + constructor; [exact IH|].
      apply List.Forall_forall. intros w Hw. apply insertBy_In in Hw.
      destruct Hw as [->|Hw].
      * destruct (Qlt_le_dec (startTime z) (startTime x)) as [Hlt|Hle].
        -- now apply Qlt_le_weak.
        -- apply byStartTime_le in Hle. congruence.
      * rewrite List.Forall_forall in Hz. now apply Hz.
Qed.

Lemma sortBy_chronological (l : list Note) :
  chronological (sortBy byStartTime l).
Proof.
  unfold sortBy. induction l as [|x l IH]; simpl.
  - constructor.
  - now apply insertBy_chronological.
Qed.

(** ** The generator returns *)

Lemma arrayAt_randomIndex {A : Type} (arr : list A) (r : Q) :
  (0 <= r)%Q -> (r < 1)%Q -> arr <> [] ->
  exists x, arrayAt arr (randomIndex r (length arr)) = Some x.
Proof.
  intros H0 H1 Hne. unfold arrayAt, randomIndex.
  set (len := inject_Z (Z.of_nat (length arr))).
  assert (0 < len)%Q as Hlen.
  { unfold len. change 0%Q with (inject_Z 0). rewrite <- Zlt_Qlt.
    destruct arr; [now destruct Hne | simpl; lia]. }
  assert (0 <= r * len)%Q as Hlo
    by (apply Qmult_le_0_compat; [exact H0 | now apply Qlt_le_weak]).
  assert (r * len < len)%Q as Hhi.
  { assert (r * len < 1 * len)%Q as Hm
      by (apply Qmult_lt_compat_r; assumption).
    lra. }
  assert (0 <= Qfloor (r * len)) as Hf0.
  { change 0 with (Qfloor 0). now apply Qfloor_resp_le. }
  assert (Qfloor (r * len) < Z.of_nat (length arr)) as Hf1.
  { rewrite Zlt_Qlt. eapply Qle_lt_trans; [apply Qfloor_le|exact Hhi]. }
  destruct (Qfloor (r * len) <? 0) eqn:E; [apply Z.ltb_lt in E; lia|].
  destruct (nth_error arr (Z.to_nat (Qfloor (r * len)))) as [x|] eqn:En.
  - now exists x.
  - apply nth_error_None in En. lia.
Qed.

(** The pattern tables always offer a single-lane pattern. *)
Lemma generatePatterns_singles (km : KeyMode) (d : Difficulty) :
  List.filter (fun p => (length p =? 1)%nat)
    (generatePatterns (lanesOf km) (DIFFICULTY_SETTINGS d) d) <> [].
Proof. destruct km, d; vm_compute; discriminate. Qed.

Lemma selectPattern_Some (d : Difficulty) (patterns : list (list nat))
    (rnd : nat -> Q) (k : nat) :
  (forall i, (0 <= rnd i)%Q /\ (rnd i < 1)%Q) ->
  List.filter (fun p => (length p =? 1)%nat) patterns <> [] ->
  exists p, fst (selectPattern d patterns rnd k) = Some p.
Proof.
  intros Hr Hs. unfold selectPattern.
  destruct (decide (d = easy)).
  - destruct (Qltb (rnd k) (7 # 10)); cbn [fst].
    + apply arrayAt_randomIndex; [apply Hr|apply Hr|exact Hs].
    + destruct (arrayAt _ (randomIndex (rnd (S k)) _)) as [p|]; [now exists p|].
      destruct (List.filter (fun p => (length p =? 1)%nat) patterns) as [|p ps];
        [now destruct Hs|]. now exists p.
  - cbn [fst]. apply arrayAt_randomIndex; [apply Hr|apply Hr|].
    intros ->. now apply Hs.
Qed.

Lemma genLoop_returns (fuel : nat) (d : Difficulty) (cfg : DifficultyConfig)
    (patterns : list (list nat)) (rnd : nat -> Q) :
  (forall i, (0 <= rnd i)%Q /\ (rnd i < 1)%Q) ->
  List.filter (fun p => (length p =? 1)%nat) patterns <> [] ->
  (0 < noteIntervalMin cfg)%Q ->
  (noteIntervalMin cfg <= noteIntervalMax cfg)%Q ->
  forall (k : nat) (time : Q) (nextId : nat) (newNotes : list Note),
    (90000 - time <= noteIntervalMin cfg * inject_Z (Z.of_nat fuel))%Q ->
    exists res, genLoop fuel d cfg patterns rnd k time nextId newNotes = Some res.
Proof.
  intros Hr Hs Hmin Hmax.
  induction fuel as [|fuel IH]; intros k time nextId newNotes Hfuel.
  - simpl. destruct (Qltb time 90000) eqn:E; [|eexists; reflexivity].
    apply Qltb_lt in E. exfalso.
    change (inject_Z (Z.of_nat 0)) with 0%Q in Hfuel. lra.
  - cbn [genLoop]. destruct (Qltb time 90000) eqn:E; [|eexists; reflexivity].
    destruct (selectPattern_Some d patterns rnd k Hr Hs) as [p Hp].
    destruct (selectPattern d patterns rnd k) as [o k1]. cbn [fst] in Hp.
    subst o. apply IH.
    rewrite Nat2Z.inj_succ in Hfuel. unfold Z.succ in Hfuel.
    rewrite inject_Z_plus in Hfuel.
    assert (0 <= rnd k1 * (noteIntervalMax cfg - noteIntervalMin cfg))%Q as Hstep.
    { apply Qmult_le_0_compat; [apply Hr|lra]. }
    set (f := inject_Z (Z.of_nat fuel)) in *.
    set (g := (rnd k1 * (noteIntervalMax cfg - noteIntervalMin cfg))%Q) in *.
    change (inject_Z 1) with 1%Q in Hfuel.
    assert (noteIntervalMin cfg * (f + 1) == noteIntervalMin cfg * f
                                            + noteIntervalMin cfg)%Q as Hd by ring.
    rewrite Hd in Hfuel. lra.
Qed.

Lemma DIFFICULTY_SETTINGS_gaps (d : Difficulty) :
  (0 < noteIntervalMin (DIFFICULTY_SETTINGS d))%Q
  /\ (noteIntervalMin (DIFFICULTY_SETTINGS d)
      <= noteIntervalMax (DIFFICULTY_SETTINGS d))%Q
  /\ (200 <= noteIntervalMin (DIFFICULTY_SETTINGS d))%Q.
Proof. destruct d; simpl; repeat split; lra. Qed.

(** ** C8: charts are chronological *)

(** C8.  Whatever the lane count, the difficulty and the draws of the
    random source, a chart that [generateNotes] returns is sorted by
    non-decreasing [startTime]; and with draws in [0, 1), as
    [Math.random()] gives them, [generateNotes] does return a chart within
    [enoughFuel] iterations. *)
Theorem chart_is_chronological (km : KeyMode) (d : Difficulty)
    (rnd : nat -> Q) (nextId : nat) :
  (forall fuel chart nextId',
     generateNotes fuel km d rnd nextId = Some (chart, nextId') ->
     chronological chart)
  /\ ((forall i, (0 <= rnd i)%Q /\ (rnd i < 1)%Q) ->
      forall fuel, (enoughFuel <= fuel)%nat ->
      exists chart nextId',
        generateNotes fuel km d rnd nextId = Some (chart, nextId')
        /\ chronological chart).
Proof.
  assert (forall fuel chart nextId',
            generateNotes fuel km d rnd nextId = Some (chart, nextId') ->
            chronological chart) as Hsorted.
  { intros fuel chart nextId'. unfold generateNotes. cbv zeta.
    destruct (genLoop fuel d _ _ rnd 0 3000 nextId []) as [[newNotes n']|];
      [|discriminate].
    intros [= <- _]. apply sortBy_chronological. }
  split; [exact Hsorted|].
  intros Hr fuel Hfuel.
  destruct (DIFFICULTY_SETTINGS_gaps d) as (Hmin & Hmax & H200).
  destruct (genLoop_returns fuel d (DIFFICULTY_SETTINGS d)
              (generatePatterns (lanesOf km) (DIFFICULTY_SETTINGS d) d) rnd
              Hr (generatePatterns_singles km d) Hmin Hmax 0%nat 3000 nextId [])
    as [[newNotes n'] Hgen].
  { assert (inject_Z 435 <= inject_Z (Z.of_nat fuel))%Q as Hf.
    { rewrite <- Zle_Qle. unfold enoughFuel in Hfuel. lia. }
    change (inject_Z 435) with 435%Q in Hf.
    set (f := inject_Z (Z.of_nat fuel)) in *.
    set (m := noteIntervalMin (DIFFICULTY_SETTINGS d)) in *.
    assert (200 * 435 <= m * f)%Q as Hprod.
    { eapply Qle_trans; [apply (Qmult_le_compat_r 200 m 435 H200); lra|].
      rewrite !(Qmult_comm m). apply Qmult_le_compat_r; [exact Hf|lra]. }
    lra. }
  exists (sortBy byStartTime newNotes), n'.
  assert (generateNotes fuel km d rnd nextId
          = Some (sortBy byStartTime newNotes, n')) as Heq.
  { unfold generateNotes. cbv zeta. now rewrite Hgen. }
  split; [exact Heq|]. apply (Hsorted fuel _ _ Heq).
Qed.

(** ** [startGame] opens a fresh session *)

Lemma emit_ids (pattern : list nat) (time : Q) (nextId : nat) :
  map id (emit pattern time nextId) = seq nextId (length pattern)
  /\ Forall (fun n => hit n = false) (emit pattern time nextId).
Proof.
  revert nextId. induction pattern as [|ln rest IH]; intros nextId; simpl.
  - split; constructor.
  - destruct (IH (S nextId)) as [-> Hall]. split; [reflexivity|].
    constructor; [reflexivity|exact Hall].
Qed.

Lemma genLoop_ids (fuel : nat) (d : Difficulty) (cfg : DifficultyConfig)
    (patterns : list (list nat)) (rnd : nat -> Q) (base : nat) :
  forall (k : nat) (time : Q) (nextId : nat) (newNotes res : list Note)
         (nextId' : nat),
    (base <= nextId)%nat ->
    map id newNotes = seq base (nextId - base) ->
    Forall (fun n => hit n = false) newNotes ->
    genLoop fuel d cfg patterns rnd k time nextId newNotes = Some (res, nextId') ->
    (base <= nextId')%nat
    /\ map id res = seq base (nextId' - base)
    /\ Forall (fun n => hit n = false) res.
Proof.
  induction fuel as [|fuel IH]; intros k time nextId newNotes res nextId' Hb Hids Hall;
    cbn [genLoop]; destruct (Qltb time 90000).
  - discriminate.
  - intros [= <- <-]. now repeat split.
  - destruct (selectPattern d patterns rnd k) as [[p|] k1]; [|discriminate].
    destruct (emit_ids p time nextId) as [Hpi Hpa].
    apply IH.
    + lia.
    + rewrite map_app, Hids, Hpi.
      replace (nextId + length p - base)%nat
        with ((nextId - base) + length p)%nat by lia.
      rewrite seq_app. do 2 f_equal. lia.
    + apply Forall_app. now split.
  - intros [= <- <-]. now repeat split.
Qed.

Lemma insertBy_Permutation (cmp : Note -> Note -> Q) (x : Note) (l : list Note) :
  Permutation (insertBy cmp x l) (x :: l).
Proof.
  induction l as [|y l IH]; simpl.
  - reflexivity.
  - destruct (Qle_bool (cmp x y) 0); [reflexivity|].
    rewrite IH. apply perm_swap.
Qed.

Lemma sortBy_Permutation (cmp : Note -> Note -> Q) (l : list Note) :
  Permutation (sortBy cmp l) l.
Proof.
  unfold sortBy. induction l as [|x l IH]; simpl.
  - reflexivity.
  - rewrite insertBy_Permutation. now constructor.
Qed.

(** Every chart has unique ids and only unresolved notes, so a started
    game is a fresh session. *)
Lemma startGame_fresh (fuel : nat) (rnd : nat -> Q) (s s' : State) :
  startGame fuel rnd s = Some s' -> freshSession s' /\ chronological (notes s').
Proof.
  unfold startGame, generateNotes. cbv zeta.
  destruct (genLoop fuel (difficulty s) _ _ rnd 0 3000 (noteIdRef s) [])
    as [[newNotes n']|] eqn:Hgen; [|discriminate].
  intros [= <-]. cbn [gameState stats notes].
  eapply (genLoop_ids _ _ _ _ _ (noteIdRef s)) in Hgen;
    [|lia|now rewrite Nat.sub_diag|constructor].
  destruct Hgen as (_ & Hids & Hall).
  split; [|apply sortBy_chronological].
  unfold freshSession. cbn [gameState stats notes].
  repeat split.
  - eapply Permutation_Forall; [|exact Hall].
    symmetry. apply sortBy_Permutation.
  - unfold uniqueIds.
    eapply Permutation_NoDup.
    + apply Permutation_map. symmetry. apply sortBy_Permutation.
    + rewrite Hids. apply seq_NoDup.
Qed.

(** A hit never writes [maxCombo]. *)
Lemma checkNoteHit_maxCombo (ln : nat) (s : State) :
  maxCombo (stats (checkNoteHit ln s)) = maxCombo (stats s).
Proof.
  destruct (selected ln s) as [c|] eqn:Hsel.
  - destruct (classification_cases ln s c Hsel) as [(_ & ->)|(_ & ->)];
      reflexivity.
  - now rewrite (checkNoteHit_None ln s Hsel).
Qed.

(** [maxCombo] is a non-negative count throughout a session. *)
Lemma step_maxCombo_nonneg (e : Event) (s : State) :
  0 <= maxCombo (stats s) -> 0 <= maxCombo (stats (step e s)).
Proof.
  intros H. destruct e as [code|code|t|now|].
  - simpl. unfold handleKeyDown.
    destruct (gameState s); try exact H.
    destruct (keyMap (keyMode s) !! code) as [ln|]; [|exact H].
    destruct (decide (ln ∈ pressedKeys s)); [exact H|].
    now rewrite checkNoteHit_maxCombo.
  - destruct (step_other_cells (KeyUp code) s) as [_ ->];
      [discriminate|discriminate|exact H].
  - simpl. destruct (decide (gameState s = playing)); [|exact H].
    rewrite gameLoop_stats, iter_addMiss.
    destruct (length (List.filter isMissed (notes s))) as [|[|k]]; simpl; lia.
  - destruct (step_other_cells (TogglePause now) s) as [_ ->];
      [discriminate|discriminate|exact H].
  - exact H.
Qed.

Lemma run_maxCombo_nonneg (es : list Event) (s : State) :
  freshSession s -> 0 <= maxCombo (stats (run es s)).
Proof.
  intros (_ & Hst & _).
  assert (0 <= maxCombo (stats s)) as H by (rewrite Hst; simpl; lia).
  clear Hst. unfold run. revert s H.
  induction es as [|e es IH]; intros s H; simpl; [exact H|].
  apply IH. now apply step_maxCombo_nonneg.
Qed.

(** ** C5: the miss detector against the derived positions *)

(** C5.  The miss detector is meant to resolve, in every frame, each
    unresolved note whose derived position exceeds
    [JUDGMENT_LINE_Y + GOOD_THRESHOLD], and to count one miss per such
    note.  In this variant the detector of a frame tests the positions
    stored before the frame, not the ones the frame derives: with distinct
    ids, a note that is unresolved and whose stored position is within the
    bound leaves the frame unresolved and at its derived position, however
    far beyond the bound that is.  In the session started from the menu
    with every draw one half, the frame 5000 ms after the first one
    derives the position 700 for the two notes scheduled at 3000 ms and
    leaves both unresolved with no miss counted; the same frame run once
    more resolves them and counts the two misses. *)
Theorem miss_sweep_lags_one_frame :
  (forall t s,
     uniqueIds (notes s) ->
     Forall2
       (fun n n' =>
          hit n = false ->
          (currentY n <= JUDGMENT_LINE_Y + GOOD_THRESHOLD)%Q ->
          hit n' = false
          /\ currentY n' =
               positionAt (elapsedOf t s) (speedMultiplier s)
                 (diffSpeedMultiplier (DIFFICULTY_SETTINGS (difficulty s))) n)
       (notes s) (notes (gameLoop t s)))
  /\ exists s1,
       startGame enoughFuel halfDraws menuState = Some s1
       /\ map (fun n => (id n, hit n)) (firstn 2 (notes (run lateFrames s1)))
          = [(0%nat, false); (1%nat, false)]
       /\ Forall
            (fun n =>
               (startTime n == 3000)%Q
               /\ (currentY n == 700)%Q
               /\ (JUDGMENT_LINE_Y + GOOD_THRESHOLD < currentY n)%Q)
            (firstn 2 (notes (run lateFrames s1)))
       /\ miss (stats (run lateFrames s1)) = 0
       /\ map (fun n => (id n, hit n))
            (firstn 2 (notes (run (lateFrames ++ [Frame (1000 + 5000)]) s1)))
          = [(0%nat, true); (1%nat, true)]
       /\ miss (stats (run (lateFrames ++ [Frame (1000 + 5000)]) s1)) = 2.
Proof.
  split.
  - intros t s Hu. rewrite gameLoop_notes. apply Forall2_map_same.
    intros n Hin Hh Hy. cbv zeta.
    rewrite (sweptId_unique (notes s) n Hu Hin).
    assert (isMissed n = false) as Hm.
    { destruct (isMissed n) eqn:Em; [|reflexivity].
      apply isMissed_spec in Em. destruct Em as [_ Hlt].
      exfalso. apply (Qlt_not_le _ _ Hlt). exact Hy. }
    rewrite Hm. unfold moveNote, positionAt. rewrite Hh.
    cbn [hit currentY id lane startTime]. now split.
  - destruct (startGame enoughFuel halfDraws menuState) as [s1|] eqn:E.
    + exists s1. split; [reflexivity|].
      vm_compute in E. injection E as <-.
      split; [vm_compute; reflexivity|].
      split.
      { vm_compute. repeat constructor; discriminate. }
      split; [vm_compute; reflexivity|].
      split; vm_compute; reflexivity.
    + vm_compute in E. discriminate E.
Qed.

(** ** C6: [maxCombo] against the running maximum of the combo *)

(** C6.  [maxCombo] is meant to hold, at every point, the largest combo
    reached so far.  In this variant a hit never writes [maxCombo]
    (only a miss does), so after a streak that no miss has broken it lags:
    in the session started from the menu with every draw one half, the
    first note brought onto the line and hit, the combo is 1 and
    [maxCombo] is still 0. *)
Theorem maxCombo_lags_unbroken_streak :
  (forall ln s, maxCombo (stats (checkNoteHit ln s)) = maxCombo (stats s))
  /\ exists s1,
       startGame enoughFuel halfDraws menuState = Some s1
       /\ combo (stats (run firstHit s1)) = 1
       /\ maxCombo (stats (run firstHit s1)) = 0.
Proof.
  split.
  - apply checkNoteHit_maxCombo.
  - destruct (startGame enoughFuel halfDraws menuState) as [s1|] eqn:E.
    + exists s1. split; [reflexivity|].
      vm_compute in E. injection E as <-. vm_compute. now split.
    + vm_compute in E. discriminate E.
Qed.

(** ** The first variant, where it differs *)

(** The first variant keeps [maxCombo] up to date after every hit through
    its effect on [stats.combo]. *)
Lemma V1_effect_tracks_maxCombo (ln : nat) (s : V1.State) :
  combo (V1.stats s) <= maxCombo (V1.stats s) ->
  combo (V1.stats (V1.withEffects (V1.checkNoteHit ln) s))
  <= maxCombo (V1.stats (V1.withEffects (V1.checkNoteHit ln) s)).
Proof.
  intros Hle. unfold V1.withEffects.
  destruct (combo (V1.stats (V1.checkNoteHit ln s)) =? combo (V1.stats s)) eqn:E.
  - apply Z.eqb_eq in E. rewrite E.
    unfold V1.checkNoteHit.
    destruct (List.find (V1.inHitWindow ln) (V1.notes s)) as [h|]; [|exact Hle].
    destruct (Qltb (V1.distanceOf h) V1.PERFECT_THRESHOLD); [simpl; exact Hle|].
    destruct (Qltb (V1.distanceOf h) V1.GOOD_THRESHOLD); simpl; exact Hle.
  - simpl. lia.
Qed.

(** The first variant takes the first note of the list inside the window,
    not the nearest: here the note 90 pixels off wins over the one on the
    line, and the score formula is [scoreAdd * (combo + 1)]. *)
Lemma V1_first_found_wins :
  let s :=
    V1.mkState playing
      [V1.mkNote 0 0 1000 590 false; V1.mkNote 1 0 1300 500 false]
      (mkStats 1000 1 0 1 0 0) None 0 0 in
  map V1.hit (V1.notes (V1.checkNoteHit 0 s)) = [true; false]
  /\ score (V1.stats (V1.checkNoteHit 0 s)) = 1000 + 500 * 2.
Proof. vm_compute. now split. Qed.

(** The first variant has no pause offset: after pause and resume the
    first frame reads an elapsed time of zero. *)
Lemma V1_resume_restarts_clock (s : V1.State) (t' : Q) :
  V1.gameState s = playing ->
  (V1.currentTime (V1.gameLoop t' (V1.togglePause (V1.togglePause s))) == 0)%Q.
Proof.
  intros Hp. unfold V1.togglePause at 2. rewrite Hp.
  unfold V1.togglePause. cbn [V1.gameState].
  unfold V1.gameLoop, V1.missSweep. cbn [V1.startTimeRef].
  change (Qeq_bool 0 0) with true. cbv iota.
  match goal with |- (V1.currentTime (fold_left ?f ?l ?st) == 0)%Q =>
    assert (forall l' st', V1.currentTime (fold_left f l' st') = V1.currentTime st')
      as Hfold end.
  { induction l' as [|x l' IH]; intros st'; simpl; [reflexivity|].
    rewrite IH. destruct (V1.isMissed x); reflexivity. }
  rewrite Hfold. simpl. lra.
Qed.

(** The first variant repositions every note on every frame, resolved or
    not. *)
Lemma V1_moves_resolved_notes :
  let s :=
    V1.mkState playing [V1.mkNote 0 0 1000 500 true] initialStats None 0 1000 in
  map V1.y (V1.notes (V1.gameLoop 5000 s)) = [(-100 + (4000 - 1000) / 1000 * 300)%Q].
Proof. reflexivity. Qed.

(** ** The theorems at work on the worked sessions *)

Lemma nearest_note_wins_witness :
  exists c,
    (distanceOf c <= distanceOf (mkNote 0 0 1000 545 false))%Q
    /\ onlyResolves c (notes twoInWindow) (notes (checkNoteHit 0 twoInWindow)).
Proof.
  destruct (nearest_note_wins 0%nat twoInWindow) as (c & _ & _ & _ & _ & Hmin & Hres & _).
  - unfold uniqueIds. simpl. repeat constructor; simpl; intuition discriminate.
  - exists (mkNote 1 0 1200 490 false). repeat split; simpl; auto.
  - exists c. split; [|exact Hres].
    apply Hmin; [simpl; auto|reflexivity|reflexivity|reflexivity].
Defined.

Lemma score_increment_witness :
  score (stats (checkNoteHit 0 atCombo10)) = score (stats atCombo10) + 1000 * 2.
Proof.
  destruct (score_increment 0%nat atCombo10 (mkNote 10 0 5000 500 false))
    as (_ & _ & _ & H); [reflexivity|].
  apply H; reflexivity.
Defined.

Lemma pause_resume_preserves_elapsed_witness :
  (fst (pauseResumeCycles [2000; 7000; 7500]%Q 1000 midSession) == 600)%Q.
Proof.
  apply (proj2 (proj2 (pause_resume_preserves_elapsed midSession 1000 eq_refl))).
Defined.

Lemma classification_is_strict_witness :
  judged onBoundaries (checkNoteHit 0 onBoundaries) = GOOD
  /\ In (mkNote 1 0 2000 420 false) (notes (checkNoteHit 0 onBoundaries)).
Proof.
  destruct (classification_is_strict 0%nat onBoundaries) as [Hsel Hedge]. split.
  - destruct (Hsel (mkNote 0 0 1000 540 false) eq_refl) as (_ & _ & Hgood).
    apply Hgood. vm_compute. discriminate.
  - destruct (Hedge (mkNote 1 0 2000 420 false)) as (_ & _ & Hkeep).
    + simpl. auto.
    + reflexivity.
    + apply Hkeep. unfold uniqueIds. simpl.
      repeat constructor; simpl; intuition discriminate.
Defined.

Lemma miss_sweep_stored_witness :
  miss (stats (gameLoop 1000 lateNotes)) = 0 + 2
  /\ combo (stats (gameLoop 1000 lateNotes)) = 0
  /\ maxCombo (stats (gameLoop 1000 lateNotes)) = Z.max 1 3.
Proof.
  destruct (miss_sweep_stored 1000 lateNotes) as (_ & Hm & Hc & _).
  split; [exact Hm|]. apply Hc.
  - vm_compute. discriminate.
  - vm_compute. discriminate.
Defined.

Lemma resolved_is_final_witness :
  countedNotes (stats (run twoPresses twoInWindow))
  = resolvedCount (notes (run twoPresses twoInWindow)).
Proof.
  apply (proj2 (proj2 resolved_is_final)).
  unfold freshSession. repeat split.
  - simpl. repeat constructor.
  - unfold uniqueIds. simpl. repeat constructor; simpl; intuition discriminate.
Defined.

Lemma chart_is_chronological_witness :
  exists chart nextId',
    generateNotes enoughFuel Key4 normal halfDraws 0 = Some (chart, nextId')
    /\ chronological chart.
Proof.
  apply (proj2 (chart_is_chronological Key4 normal halfDraws 0)).
  - intros i. split; vm_compute; [discriminate|reflexivity].
  - apply le_n.
Defined.

Lemma unmatched_keypress_is_noop_witness : checkNoteHit 0 farNote = farNote.
Proof.
  apply (unmatched_keypress_is_noop 0%nat farNote).
  intros n [<-|[]] _ _. vm_compute. discriminate.
Defined.

Lemma keydown_gating_witness :
  run heldTrace holdingLane0
  = run (List.filter (fun e => negb (presses (keyMode holdingLane0) 0 e)) heldTrace)
      holdingLane0.
Proof.
  apply (proj1 (proj2 (proj2 (proj2 keydown_gating))) heldTrace holdingLane0 0%nat).
  - change (0%nat ∈ ({[ 0%nat ]} : gset nat)).
    apply elem_of_singleton_2. reflexivity.
  - repeat constructor.
Defined.

(** * Further properties of the component *)

(** ** The pattern table *)

(** What every pattern of the table satisfies. *)
Lemma generatePatterns_sound (lanes : nat) (cfg : DifficultyConfig)
    (d : Difficulty) (p : list nat) :
  In p (generatePatterns lanes cfg d) ->
  p <> []
  /\ List.NoDup p
  /\ (forall ln, In ln p -> (ln < lanes)%nat)
  /\ (length p <= 4)%nat
  /\ (d = easy -> (length p <= 2)%nat).
Proof.
  unfold generatePatterns. cbv zeta.
  set (all := (_ ++ _ ++ _ ++ _)).
  assert (In p all ->
          p <> [] /\ List.NoDup p /\ (forall ln, In ln p -> (ln < lanes)%nat)
          /\ (length p <= 4)%nat) as Hall.
  { unfold all. rewrite !in_app_iff. intros [H|[H|[H|H]]].
    - apply in_map_iff in H. destruct H as (i & <- & Hi). apply in_seq in Hi.
      repeat split; [discriminate| |intros ln [<-|[]]; lia|simpl; lia].
      repeat constructor. intros [].
    - destruct (Qle_bool (6 # 10) (patternComplexity cfg)); [|destruct H].
      apply in_flat_map in H. destruct H as (i & Hi & Hp). apply in_seq in Hi.
      destruct Hp as [<-|Hp].
      + repeat split; [discriminate| |intros ln [<-|[<-|[]]]; lia|simpl; lia].
        repeat constructor; simpl; [intros [H|[]]; lia|intros []].
      + destruct (i <? lanes - 2)%nat eqn:E; [|destruct Hp].
        apply Nat.ltb_lt in E. destruct Hp as [<-|[]].
        repeat split; [discriminate| |intros ln [<-|[<-|[]]]; lia|simpl; lia].
        repeat constructor; simpl; [intros [H|[]]; lia|intros []].
    - destruct (Qle_bool 1 (patternComplexity cfg) && (6 <=? lanes)%nat);
        [|destruct H].
      apply in_map_iff in H. destruct H as (i & <- & Hi). apply in_seq in Hi.
      repeat split;
        [discriminate| |intros ln [<-|[<-|[<-|[]]]]; lia|simpl; lia].
      repeat constructor; simpl;
        [intros [H|[H|[]]]; lia|intros [H|[]]; lia|intros []].
    - destruct (Qle_bool 1 (patternComplexity cfg)); [|destruct H].
      destruct (8 <=? lanes)%nat eqn:E; [|destruct H].
      apply Nat.leb_le in E. simpl in H.
      destruct H as [<-|[<-|[<-|[<-|[]]]]];
        (repeat split;
         [discriminate
         |repeat constructor; simpl; intuition lia
         |intros ln Hln; simpl in Hln; intuition lia
         |simpl; lia]). }
  destruct (decide (d = easy)) as [He|Hne].
  - intros Hin. apply filter_In in Hin. destruct Hin as [Hin Hlen].
    apply Nat.leb_le in Hlen.
    destruct (Hall Hin) as (H1 & H2 & H3 & H4). repeat split; auto.
  - intros Hin. destruct (Hall Hin) as (H1 & H2 & H3 & H4).
    repeat split; auto. intros He. contradiction.
Qed.

(** X1.  Whatever the lane count, the difficulty settings and the
    difficulty, every pattern that [generatePatterns] offers is non-empty,
    names no lane twice, names only lanes below the lane count and has at
    most four lanes, at most two on easy. *)
Theorem patterns_well_formed (lanes : nat) (cfg : DifficultyConfig)
    (d : Difficulty) (p : list nat) :
  In p (generatePatterns lanes cfg d) ->
  p <> []
  /\ List.NoDup p
  /\ (forall ln, In ln p -> (ln < lanes)%nat)
  /\ (length p <= 4)%nat
  /\ (d = easy -> (length p <= 2)%nat).
Proof. apply generatePatterns_sound. Qed.

(** ** The generator loop, by invariant *)

Lemma arrayAt_In {A : Type} (arr : list A) (i : Z) (x : A) :
  arrayAt arr i = Some x -> In x arr.
Proof.
  unfold arrayAt. destruct (i <? 0); [discriminate|]. apply nth_error_In.
Qed.

Lemma selectPattern_In (d : Difficulty) (patterns : list (list nat))
    (rnd : nat -> Q) (k : nat) (p : list nat) :
  fst (selectPattern d patterns rnd k) = Some p -> In p patterns.
Proof.
  unfold selectPattern. destruct (decide (d = easy)).
  - destruct (Qltb (rnd k) (7 # 10)); cbn [fst].
    + intros H. apply arrayAt_In in H. now apply filter_In in H.
    + destruct (arrayAt _ (randomIndex (rnd (S k)) _)) as [q|] eqn:E.
      * intros [= <-]. apply arrayAt_In in E. now apply filter_In in E.
      * intros H. apply arrayAt_In in H. now apply filter_In in H.
  - cbn [fst]. apply arrayAt_In.
Qed.

(** An invariant of the cursor, the id counter and the notes pushed so far
    that every iteration keeps holds of what the loop returns, at a cursor
    that is no longer below the horizon. *)
Lemma genLoop_invariant (d : Difficulty) (cfg : DifficultyConfig)
    (patterns : list (list nat)) (rnd : nat -> Q)
    (I : Q -> nat -> list Note -> Prop) :
  (forall time nextId acc p k1,
     Qltb time 90000 = true -> In p patterns -> I time nextId acc ->
     I (time + (noteIntervalMin cfg
                + rnd k1 * (noteIntervalMax cfg - noteIntervalMin cfg)))%Q
       (nextId + length p)%nat (acc ++ emit p time nextId)) ->
  forall fuel k time nextId acc res nextId',
    genLoop fuel d cfg patterns rnd k time nextId acc = Some (res, nextId') ->
    I time nextId acc ->
    exists tf, Qltb tf 90000 = false /\ I tf nextId' res.
Proof.
  intros Hstep. induction fuel as [|fuel IH];
    intros k time nextId acc res nextId'; cbn [genLoop];
    destruct (Qltb time 90000) eqn:E.
  - discriminate.
  - intros [= <- <-] HI. now exists time.
  - destruct (selectPattern d patterns rnd k) as [[p|] k1] eqn:Es; [|discriminate].
    intros Hgen HI. apply (IH _ _ _ _ _ _ Hgen).
    apply Hstep; [exact E| |exact HI].
    apply (selectPattern_In d patterns rnd k). now rewrite Es.
  - intros [= <- <-] HI. now exists time.
Qed.

Lemma emit_notes (p : list nat) (time : Q) (nextId : nat) (n : Note) :
  In n (emit p time nextId) ->
  In (lane n) p /\ startTime n = time /\ currentY n = (-100)%Q /\ hit n = false.
Proof.
  revert nextId. induction p as [|ln rest IH]; intros nextId; simpl.
  - intros [].
  - intros [<-|Hin]; [simpl; auto|].
    destruct (IH _ Hin) as (H1 & H2 & H3 & H4). auto.
Qed.

Lemma emit_nonempty (p : list nat) (time : Q) (nextId : nat) :
  p <> [] -> exists n, In n (emit p time nextId) /\ startTime n = time.
Proof.
  destruct p as [|ln rest]; [intros H; now destruct H|]. intros _.
  eexists. split; [now left|reflexivity].
Qed.

(** ** Charts are well formed *)

(** X2.  A chart that [generateNotes] returns, whatever the draws, is not
    empty and has a note scheduled at exactly 3000 ms; every note of it
    lies in a lane below the key count, is scheduled before 90000 ms,
    starts unresolved at position -100, and carries an id taken from the
    counter: the ids are exactly the block from the counter's old value up
    to its new one, each once. *)
Theorem chart_well_formed (fuel : nat) (km : KeyMode) (d : Difficulty)
    (rnd : nat -> Q) (nextId nextId' : nat) (chart : list Note) :
  generateNotes fuel km d rnd nextId = Some (chart, nextId') ->
  chart <> []
  /\ (exists n, In n chart /\ startTime n = 3000%Q)
  /\ Forall
       (fun n =>
          (lane n < lanesOf km)%nat
          /\ (startTime n < 90000)%Q
          /\ currentY n = (-100)%Q
          /\ hit n = false
          /\ (nextId <= id n < nextId')%nat)
       chart
  /\ length chart = (nextId' - nextId)%nat
  /\ uniqueIds chart.
Proof.
  unfold generateNotes. cbv zeta.
  set (cfg := DIFFICULTY_SETTINGS d).
  set (patterns := generatePatterns (lanesOf km) cfg d).
  destruct (genLoop fuel d cfg patterns rnd 0 3000 nextId []) as [[res n']|] eqn:Hgen;
    [|discriminate].
  intros [= <- <-].
  pose proof (sortBy_Permutation byStartTime res) as Hperm.
  (* ids *)
  destruct (genLoop_ids fuel d cfg patterns rnd nextId 0%nat 3000 nextId [] res n')
    as (Hle & Hids & _);
    [lia|now rewrite Nat.sub_diag|constructor|exact Hgen|].
  (* per-note facts *)
  destruct (genLoop_invariant d cfg patterns rnd
              (fun _ _ acc =>
                 Forall (fun n => (lane n < lanesOf km)%nat
                                  /\ (startTime n < 90000)%Q
                                  /\ currentY n = (-100)%Q /\ hit n = false) acc))
    with (fuel := fuel) (k := 0%nat) (time := 3000%Q) (nextId := nextId)
         (acc := @nil Note) (res := res) (nextId' := n')
    as (_ & _ & Hall).
  { intros time i acc p k1 Ht Hp Hacc. apply Forall_app. split; [exact Hacc|].
    apply List.Forall_forall. intros n Hn.
    destruct (emit_notes p time i n Hn) as (Hl & Hs & Hy & Hh).
    destruct (generatePatterns_sound _ _ _ p Hp) as (_ & _ & Hr & _).
    repeat split; auto. rewrite Hs. now apply Qltb_lt. }
  { exact Hgen. }
  { constructor. }
  (* the first step *)
  destruct (genLoop_invariant d cfg patterns rnd
              (fun time _ acc =>
                 (time = 3000%Q /\ acc = [])
                 \/ exists n, In n acc /\ startTime n = 3000%Q))
    with (fuel := fuel) (k := 0%nat) (time := 3000%Q) (nextId := nextId)
         (acc := @nil Note) (res := res) (nextId' := n')
    as (tf & Htf & Hfirst).
  { intros time i acc p k1 Ht Hp [[-> ->]|(n & Hn & Hs)]; right.
    - destruct (generatePatterns_sound _ _ _ p Hp) as (Hne & _).
      destruct (emit_nonempty p 3000 i Hne) as (n & Hn & Hs).
      exists n. split; [|exact Hs]. apply in_or_app. now right.
    - exists n. split; [|exact Hs]. apply in_or_app. now left. }
  { exact Hgen. }
  { now left. }
  destruct Hfirst as [[-> _]|(n0 & Hn0 & Hs0)]; [discriminate Htf|].
  assert (In n0 (sortBy byStartTime res)) as Hn0'
    by (eapply Permutation_in; [symmetry; exact Hperm|exact Hn0]).
  split; [intros Hnil; rewrite Hnil in Hn0'; destruct Hn0'|].
  split; [now exists n0|].
  split.
  - apply List.Forall_forall. intros n Hn.
    assert (In n res) as Hn' by (eapply Permutation_in; [exact Hperm|exact Hn]).
    rewrite List.Forall_forall in Hall. destruct (Hall n Hn') as (H1 & H2 & H3 & H4).
    repeat split; auto.
    + assert (In (id n) (seq nextId (n' - nextId))) as Hi
        by (rewrite <- Hids; now apply in_map).
      apply in_seq in Hi. lia.
    + assert (In (id n) (seq nextId (n' - nextId))) as Hi
        by (rewrite <- Hids; now apply in_map).
      apply in_seq in Hi. lia.
  - split.
    + rewrite (Permutation_length Hperm).
      rewrite <- (length_map id res), Hids. apply length_seq.
    + unfold uniqueIds. eapply Permutation_NoDup.
      * apply Permutation_map. symmetry. exact Hperm.
      * rewrite Hids. apply seq_NoDup.
Qed.

(** ** Emission order and collisions *)

Lemma gap_nonneg (d : Difficulty) (r : Q) :
  (0 <= r)%Q ->
  (0 < noteIntervalMin (DIFFICULTY_SETTINGS d)
       + r * (noteIntervalMax (DIFFICULTY_SETTINGS d)
              - noteIntervalMin (DIFFICULTY_SETTINGS d)))%Q.
Proof.
  intros Hr. destruct (DIFFICULTY_SETTINGS_gaps d) as (Hmin & Hmax & _).
  assert (0 <= r * (noteIntervalMax (DIFFICULTY_SETTINGS d)
                    - noteIntervalMin (DIFFICULTY_SETTINGS d)))%Q
    by (apply Qmult_le_0_compat; [exact Hr|lra]).
  lra.
Qed.

Lemma chronological_app (l1 l2 : list Note) :
  chronological l1 -> chronological l2 ->
  (forall a b, In a l1 -> In b l2 -> (startTime a <= startTime b)%Q) ->
  chronological (l1 ++ l2).
Proof.
  unfold chronological. intros H1 H2 H12.
  induction H1 as [|x l Hs IH Hx]; simpl; [exact H2|].
  constructor.
  - apply IH. intros a b Ha Hb. apply H12; [now right|exact Hb].
  - apply Forall_app. split; [exact Hx|].
    apply List.Forall_forall. intros b Hb. apply H12; [now left|exact Hb].
Qed.

Lemma emit_chronological (p : list nat) (time : Q) (nextId : nat) :
  chronological (emit p time nextId).
Proof.
  unfold chronological. revert nextId.
  induction p as [|ln rest IH]; intros nextId; simpl; constructor.
  - apply IH.
  - apply List.Forall_forall. intros b Hb.
    destruct (emit_notes rest time (S nextId) b Hb) as (_ & -> & _).
    simpl. apply Qle_refl.
Qed.

Lemma sortBy_chronological_id (l : list Note) :
  chronological l -> sortBy byStartTime l = l.
Proof.
  unfold chronological, sortBy. induction 1 as [|x l Hs IH Hx]; simpl.
  - reflexivity.
  - rewrite IH. destruct l as [|y l']; [reflexivity|]. simpl.
    inversion Hx as [|? ? Hxy _]; subst.
    apply byStartTime_le in Hxy. now rewrite Hxy.
Qed.

Lemma emit_lane_inj (p : list nat) (time : Q) (nextId : nat) (a b : Note) :
  List.NoDup p -> In a (emit p time nextId) -> In b (emit p time nextId) ->
  lane a = lane b -> a = b.
Proof.
  revert nextId. induction p as [|ln rest IH]; intros nextId Hnd; simpl.
  - intros [].
  - inversion Hnd as [|? ? Hnotin Hnd']; subst.
    intros [<-|Ha] [<-|Hb] Hl.
    + reflexivity.
    + destruct (emit_notes rest time _ b Hb) as (Hin & _).
      simpl in Hl. rewrite <- Hl in Hin. contradiction.
    + destruct (emit_notes rest time _ a Ha) as (Hin & _).
      simpl in Hl. rewrite Hl in Hin. contradiction.
    + now apply (IH (S nextId)).
Qed.

(** X3.  With draws that are not negative the cursor only moves forward,
    so the notes are pushed in time order and the stable sort leaves them
    where they are: along the returned chart the ids count up by one from
    the old value of the counter. *)
Theorem chart_keeps_emission_order (fuel : nat) (km : KeyMode) (d : Difficulty)
    (rnd : nat -> Q) (nextId nextId' : nat) (chart : list Note) :
  (forall i, (0 <= rnd i)%Q) ->
  generateNotes fuel km d rnd nextId = Some (chart, nextId') ->
  map id chart = seq nextId (length chart).
Proof.
  intros Hr. unfold generateNotes. cbv zeta.
  set (cfg := DIFFICULTY_SETTINGS d).
  set (patterns := generatePatterns (lanesOf km) cfg d).
  destruct (genLoop fuel d cfg patterns rnd 0 3000 nextId []) as [[res n']|] eqn:Hgen;
    [|discriminate].
  intros [= <- <-].
  destruct (genLoop_ids fuel d cfg patterns rnd nextId 0%nat 3000 nextId [] res n')
    as (Hle & Hids & _);
    [lia|now rewrite Nat.sub_diag|constructor|exact Hgen|].
  destruct (genLoop_invariant d cfg patterns rnd
              (fun time _ acc =>
                 chronological acc
                 /\ Forall (fun n => (startTime n <= time)%Q) acc))
    with (fuel := fuel) (k := 0%nat) (time := 3000%Q) (nextId := nextId)
         (acc := @nil Note) (res := res) (nextId' := n')
    as (_ & _ & Hsorted & _).
  { intros time i acc p k1 Ht Hp [Hc Hb].
    pose proof (gap_nonneg d (rnd k1) (Hr k1)) as Hgap. fold cfg in Hgap.
    rewrite List.Forall_forall in Hb. split.
    - apply chronological_app; [exact Hc|apply emit_chronological|].
      intros a b Ha Hb'. destruct (emit_notes p time i b Hb') as (_ & -> & _).
      now apply Hb.
    - apply Forall_app. split; apply List.Forall_forall; intros n Hn.
      + pose proof (Hb n Hn). lra.
      + destruct (emit_notes p time i n Hn) as (_ & -> & _). lra. }
  { exact Hgen. }
  { split; constructor. }
  rewrite (sortBy_chronological_id res Hsorted).
  rewrite Hids. f_equal. rewrite <- (length_map id res), Hids.
  symmetry. apply length_seq.
Qed.

(** X4.  With draws that are not negative, two different notes of a chart
    never sit in the same lane at the same time. *)
Theorem chart_notes_apart (fuel : nat) (km : KeyMode) (d : Difficulty)
    (rnd : nat -> Q) (nextId nextId' : nat) (chart : list Note) :
  (forall i, (0 <= rnd i)%Q) ->
  generateNotes fuel km d rnd nextId = Some (chart, nextId') ->
  forall a b, In a chart -> In b chart -> a <> b -> apart a b.
Proof.
  intros Hr. unfold generateNotes. cbv zeta.
  set (cfg := DIFFICULTY_SETTINGS d).
  set (patterns := generatePatterns (lanesOf km) cfg d).
  destruct (genLoop fuel d cfg patterns rnd 0 3000 nextId []) as [[res n']|] eqn:Hgen;
    [|discriminate].
  intros [= <- <-].
  destruct (genLoop_invariant d cfg patterns rnd
              (fun time _ acc =>
                 Forall (fun n => (startTime n < time)%Q) acc
                 /\ (forall a b, In a acc -> In b acc -> a <> b -> apart a b)))
    with (fuel := fuel) (k := 0%nat) (time := 3000%Q) (nextId := nextId)
         (acc := @nil Note) (res := res) (nextId' := n')
    as (_ & _ & _ & Hapart).
  { intros time i acc p k1 Ht Hp [Hb Hd].
    pose proof (gap_nonneg d (rnd k1) (Hr k1)) as Hgap. fold cfg in Hgap.
    destruct (generatePatterns_sound _ _ _ p Hp) as (_ & Hnd & _).
    rewrite List.Forall_forall in Hb. split.
    - apply Forall_app. split; apply List.Forall_forall; intros n Hn.
      + pose proof (Hb n Hn). lra.
      + destruct (emit_notes p time i n Hn) as (_ & -> & _). lra.
    - intros a b Ha Hb' Hne. apply in_app_or in Ha. apply in_app_or in Hb'.
      destruct Ha as [Ha|Ha], Hb' as [Hb'|Hb'].
      + now apply Hd.
      + right. destruct (emit_notes p time i b Hb') as (_ & -> & _).
        pose proof (Hb a Ha). intros Heq. lra.
      + right. destruct (emit_notes p time i a Ha) as (_ & -> & _).
        pose proof (Hb b Hb'). intros Heq. lra.
      + left. intros Hl. apply Hne.
        now apply (emit_lane_inj p time i a b Hnd). }
  { exact Hgen. }
  { split; [constructor|intros a b []]. }
  intros a b Ha Hb. apply Hapart.
  - eapply Permutation_in; [apply sortBy_Permutation|exact Ha].
  - eapply Permutation_in; [apply sortBy_Permutation|exact Hb].
Qed.

(** ** The easy difficulty *)

Lemma easy_patterns (km : KeyMode) :
  generatePatterns (lanesOf km) (DIFFICULTY_SETTINGS easy) easy
  = map (fun i => [i]) (seq 0 (lanesOf km)).
Proof. destruct km; reflexivity. Qed.

(** X5.  On easy the pattern table holds the single lanes only, so the
    two-lane branch of the pattern choice finds nothing and falls back to
    the first single-lane pattern: whenever the first draw of a step is at
    least 0.7, the step emits lane 0, whatever the second draw. *)
Theorem easy_falls_back_to_lane_0 (km : KeyMode) (rnd : nat -> Q) (k : nat) :
  generatePatterns (lanesOf km) (DIFFICULTY_SETTINGS easy) easy
  = map (fun i => [i]) (seq 0 (lanesOf km))
  /\ ((7 # 10 <= rnd k)%Q ->
      selectPattern easy
        (generatePatterns (lanesOf km) (DIFFICULTY_SETTINGS easy) easy) rnd k
      = (Some [0%nat], S (S k))).
Proof.
  split; [apply easy_patterns|].
  intros Hr. apply Qltb_ge in Hr. rewrite easy_patterns.
  unfold selectPattern. destruct (decide (easy = easy)) as [_|Hne];
    [|now destruct Hne].
  rewrite Hr.
  assert (List.filter (fun p : list nat => (length p =? 2)%nat)
            (map (fun i => [i]) (seq 0 (lanesOf km))) = []) as ->.
  { destruct km; reflexivity. }
  assert (arrayAt (@nil (list nat)) (randomIndex (rnd (S k)) (length (@nil (list nat))))
          = None) as ->.
  { unfold arrayAt. destruct (_ <? 0); [reflexivity|].
    now destruct (Z.to_nat _). }
  destruct km; reflexivity.
Qed.

(** X6.  On easy, with draws that are not negative, no two different notes
    of a chart are scheduled at the same time: easy charts have no
    chords. *)
Theorem easy_charts_have_no_chords (fuel : nat) (km : KeyMode)
    (rnd : nat -> Q) (nextId nextId' : nat) (chart : list Note) :
  (forall i, (0 <= rnd i)%Q) ->
  generateNotes fuel km easy rnd nextId = Some (chart, nextId') ->
  forall a b, In a chart -> In b chart -> a <> b ->
    ~ (startTime a == startTime b)%Q.
Proof.
  intros Hr. unfold generateNotes. cbv zeta. rewrite easy_patterns.
  set (cfg := DIFFICULTY_SETTINGS easy).
  set (patterns := map (fun i => [i]) (seq 0 (lanesOf km))).
  destruct (genLoop fuel easy cfg patterns rnd 0 3000 nextId []) as [[res n']|] eqn:Hgen;
    [|discriminate].
  intros [= <- <-].
  destruct (genLoop_invariant easy cfg patterns rnd
              (fun time _ acc =>
                 Forall (fun n => (startTime n < time)%Q) acc
                 /\ (forall a b, In a acc -> In b acc -> a <> b ->
                       ~ (startTime a == startTime b)%Q)))
    with (fuel := fuel) (k := 0%nat) (time := 3000%Q) (nextId := nextId)
         (acc := @nil Note) (res := res) (nextId' := n')
    as (_ & _ & _ & Hapart).
  { intros time i acc p k1 Ht Hp [Hb Hd].
    pose proof (gap_nonneg easy (rnd k1) (Hr k1)) as Hgap. fold cfg in Hgap.
    unfold patterns in Hp. apply in_map_iff in Hp. destruct Hp as (ln & <- & _).
    rewrite List.Forall_forall in Hb. split.
    - apply Forall_app. split; apply List.Forall_forall; intros n Hn.
      + pose proof (Hb n Hn). lra.
      + destruct Hn as [<-|[]]. cbn [startTime]. lra.
    - intros a b Ha Hb' Hne. apply in_app_or in Ha. apply in_app_or in Hb'.
      destruct Ha as [Ha|Ha], Hb' as [Hb'|Hb'].
      + now apply Hd.
      + destruct Hb' as [<-|[]]. cbn [startTime]. pose proof (Hb a Ha).
        intros Heq. lra.
      + destruct Ha as [<-|[]]. cbn [startTime]. pose proof (Hb b Hb').
        intros Heq. lra.
      + destruct Ha as [<-|[]]. destruct Hb' as [<-|[]]. now destruct Hne. }
  { exact Hgen. }
  { split; [constructor|intros a b []]. }
  intros a b Ha Hb. apply Hapart.
  - eapply Permutation_in; [apply sortBy_Permutation|exact Ha].
  - eapply Permutation_in; [apply sortBy_Permutation|exact Hb].
Qed.

(** ** Sessions: what the events keep *)

Lemma chartKey_markHitById (target : nat) (l : list Note) :
  map chartKey (markHitById target l) = map chartKey l
  /\ map currentY (markHitById target l) = map currentY l.
Proof.
  unfold markHitById. rewrite !map_map.
  split; apply map_ext; intros n; destruct (Nat.eqb (id n) target); reflexivity.
Qed.

Lemma chartKey_gameLoop (t : Q) (s : State) :
  map chartKey (notes (gameLoop t s)) = map chartKey (notes s).
Proof.
  rewrite gameLoop_notes, map_map. apply map_ext. intros n. cbv zeta.
  destruct (moveNote_keeps (elapsedOf t s) (speedMultiplier s)
              (diffSpeedMultiplier (DIFFICULTY_SETTINGS (difficulty s))) n)
    as (Hid & Hl & Hs & _).
  unfold chartKey.
  destruct (sweptId (notes s) n); simpl; now rewrite Hid, Hl, Hs.
Qed.

(** X7.  No event adds, drops or reorders notes, and none changes a note's
    id, lane or scheduled time: through any sequence of events the chart
    keeps its keys.  Only a frame moves notes: every other event leaves
    all positions as they were. *)
Theorem chart_is_immutable :
  (forall es s, map chartKey (notes (run es s)) = map chartKey (notes s))
  /\ (forall e s, (forall t, e <> Frame t) ->
        map currentY (notes (step e s)) = map currentY (notes s)).
Proof.
  assert (forall e s, map chartKey (notes (step e s)) = map chartKey (notes s))
    as Hstep.
  { intros e s. destruct e as [code|code|t|now|].
    - simpl. destruct (handleKeyDown_effect code s)
        as [[-> _]|(ln & c & _ & -> & _)]; [reflexivity|].
      apply chartKey_markHitById.
    - now destruct (step_other_cells (KeyUp code) s) as [-> _].
    - simpl. destruct (decide (gameState s = playing)); [|reflexivity].
      apply chartKey_gameLoop.
    - now destruct (step_other_cells (TogglePause now) s) as [-> _].
    - reflexivity. }
  split.
  - intros es. unfold run. induction es as [|e es IH]; intros s; simpl.
    + reflexivity.
    + rewrite IH. apply Hstep.
  - intros e s Hnf. destruct e as [code|code|t|now|].
    + simpl. destruct (handleKeyDown_effect code s)
        as [[-> _]|(ln & c & _ & -> & _)]; [reflexivity|].
      apply chartKey_markHitById.
    + now destruct (step_other_cells (KeyUp code) s) as [-> _].
    + now destruct (Hnf t).
    + now destruct (step_other_cells (TogglePause now) s) as [-> _].
    + reflexivity.
Qed.

(** What a keydown can do to the stats: nothing, one PERFECT or one GOOD. *)
Lemma handleKeyDown_stats (code : string) (s : State) :
  stats (handleKeyDown code s) = stats s
  \/ stats (handleKeyDown code s) = addPerfect 1000 (stats s)
  \/ stats (handleKeyDown code s) = addGood 500 (stats s).
Proof.
  unfold handleKeyDown.
  destruct (gameState s); try (now left).
  destruct (keyMap (keyMode s) !! code) as [ln|]; [|now left].
  destruct (decide (ln ∈ pressedKeys s)); [now left|].
  set (s1 := setPressedKeys _ s).
  destruct (selected ln s1) as [c|] eqn:Hsel.
  - destruct (classification_cases ln s1 c Hsel) as [(_ & ->)|(_ & ->)];
      [right; now left|right; now right].
  - left. now rewrite (checkNoteHit_None ln s1 Hsel).
Qed.

Lemma comboTier_pos (c : Z) : 1 <= comboTier c.
Proof. unfold comboTier. lia. Qed.

(** The stats of a step: unchanged, one hit, or a run of misses. *)
Lemma step_stats (e : Event) (s : State) :
  stats (step e s) = stats s
  \/ stats (step e s) = addPerfect 1000 (stats s)
  \/ stats (step e s) = addGood 500 (stats s)
  \/ exists k, stats (step e s) = Nat.iter k addMiss (stats s).
Proof.
  destruct e as [code|code|t|now|].
  - simpl. destruct (handleKeyDown_stats code s) as [H|[H|H]]; auto.
  - left. now destruct (step_other_cells (KeyUp code) s) as [_ ->].
  - simpl. destruct (decide (gameState s = playing)); [|now left].
    right. right. right. eexists. apply gameLoop_stats.
  - left. now destruct (step_other_cells (TogglePause now) s) as [_ ->].
  - now left.
Qed.

(** X8.  No event ever lowers the score, the perfect, good or miss counter
    or [maxCombo]: only the combo can go down. *)
Theorem counters_never_decrease (e : Event) (s : State) :
  score (stats s) <= score (stats (step e s))
  /\ perfect (stats s) <= perfect (stats (step e s))
  /\ good (stats s) <= good (stats (step e s))
  /\ miss (stats s) <= miss (stats (step e s))
  /\ maxCombo (stats s) <= maxCombo (stats (step e s)).
Proof.
  pose proof (comboTier_pos (combo (stats s))) as Ht.
  destruct (step_stats e s) as [->|[->|[->|[k ->]]]].
  - repeat split; lia.
  - unfold addPerfect; simpl. repeat split; lia.
  - unfold addGood; simpl. repeat split; lia.
  - rewrite iter_addMiss. destruct k as [|[|k]]; simpl; repeat split; lia.
Qed.

Lemma step_statsInv (e : Event) (s : State) :
  statsInv (stats s) -> statsInv (stats (step e s)).
Proof.
  unfold statsInv. intros H.
  pose proof (comboTier_pos (combo (stats s))) as Ht.
  destruct (step_stats e s) as [->|[->|[->|[k ->]]]].
  - exact H.
  - unfold addPerfect; simpl. repeat split; nia.
  - unfold addGood; simpl. repeat split; nia.
  - rewrite iter_addMiss. destruct k as [|[|k]]; simpl; repeat split; lia.
Qed.

Lemma resolvedCount_le_length (l : list Note) :
  resolvedCount l <= Z.of_nat (length l).
Proof.
  unfold resolvedCount. pose proof (filter_length_le hit l). lia.
Qed.

Lemma step_length_notes (e : Event) (s : State) :
  length (notes (step e s)) = length (notes s).
Proof.
  destruct e as [code|code|t|now|].
  - simpl. destruct (handleKeyDown_effect code s)
      as [[-> _]|(ln & c & _ & -> & _)]; [reflexivity|].
    unfold markHitById. apply length_map.
  - now destruct (step_other_cells (KeyUp code) s) as [-> _].
  - simpl. destruct (decide (gameState s = playing)); [|reflexivity].
    rewrite gameLoop_notes. apply length_map.
  - now destruct (step_other_cells (TogglePause now) s) as [-> _].
  - reflexivity.
Qed.

Lemma run_length_notes (es : list Event) (s : State) :
  length (notes (run es s)) = length (notes s).
Proof.
  unfold run. revert s. induction es as [|e es IH]; intros s; simpl.
  - reflexivity.
  - rewrite IH. apply step_length_notes.
Qed.

(** X9.  From a fresh session on, after any sequence of events: the combo
    and [maxCombo] lie between 0 and the number of hits, no counter is
    negative, the score is at least 1000 per PERFECT and 500 per GOOD, and
    there are never more judgments (perfect + good + miss) than notes in
    the chart. *)
Theorem session_stats_invariant (es : list Event) (s0 : State) :
  freshSession s0 ->
  statsInv (stats (run es s0))
  /\ countedNotes (stats (run es s0)) <= Z.of_nat (length (notes s0)).
Proof.
  intros Hf. split.
  - destruct Hf as (_ & Hst & _).
    assert (statsInv (stats s0)) as H
      by (rewrite Hst; unfold statsInv; simpl; lia).
    clear Hst. unfold run. revert s0 H.
    induction es as [|e es IH]; intros s0 H; simpl; [exact H|].
    apply IH. now apply step_statsInv.
  - destruct (run_sessionInv es s0 (freshSession_inv s0 Hf)) as [_ ->].
    pose proof (resolvedCount_le_length (notes (run es s0))) as Hle.
    pose proof (run_length_notes es s0) as Hlen.
    lia.
Qed.

(** ** Sessions that are not playing *)

Lemma step_frozen (e : Event) (s : State) :
  gameState s <> playing -> isToggle e = false ->
  gameState (step e s) = gameState s
  /\ notes (step e s) = notes s
  /\ stats (step e s) = stats s
  /\ startTimeRef (step e s) = startTimeRef s
  /\ pauseTimeRef (step e s) = pauseTimeRef s.
Proof.
  intros Hnp Hnt. destruct e as [code|code|t|now|]; simpl.
  - unfold handleKeyDown. destruct (gameState s) eqn:E; now repeat split.
  - unfold handleKeyUp. destruct (keyMap (keyMode s) !! code); now repeat split.
  - destruct (decide (gameState s = playing)); [contradiction|now repeat split].
  - discriminate Hnt.
  - now repeat split.
Qed.

(** X10.  While the session is not playing (menu, paused or ended), no key
    event, frame or label timeout changes the notes, the stats, the clock
    cells or the session state: only a pause toggle can. *)
Theorem frozen_unless_playing (es : list Event) (s : State) :
  gameState s <> playing ->
  Forall (fun e => isToggle e = false) es ->
  gameState (run es s) = gameState s
  /\ notes (run es s) = notes s
  /\ stats (run es s) = stats s
  /\ startTimeRef (run es s) = startTimeRef s
  /\ pauseTimeRef (run es s) = pauseTimeRef s.
Proof.
  intros Hnp Hall. unfold run. revert s Hnp.
  induction Hall as [|e es He _ IH]; intros s Hnp; simpl.
  - now repeat split.
  - destruct (step_frozen e s Hnp He) as (Hg & Hn & Hs & Hst & Hpt).
    destruct (IH (step e s)) as (Hg' & Hn' & Hs' & Hst' & Hpt').
    { now rewrite Hg. }
    rewrite Hg', Hn', Hs', Hst', Hpt'. now repeat split.
Qed.

(** ** The clock between frames *)

(** X11.  The clock reference is unset when it is 0.  A frame that finds
    a non-zero reference keeps it and reads its timestamp minus that
    reference as elapsed time; a frame that finds the reference unset
    fixes it at its timestamp minus the pause offset.  A reference fixed
    at a non-zero value is kept by the next frame too; but a frame whose
    timestamp equals the pause offset fixes the reference at 0, which
    still counts as unset, so the next frame fixes it anew from its own
    timestamp and the pause offset, whatever wall time has passed between
    the two frames. *)
Theorem clock_reference_is_fixed_once_nonzero (s : State) (t1 t2 : Q) :
  (~ (startTimeRef s == 0)%Q ->
     startTimeRef (gameLoop t1 s) = startTimeRef s
     /\ elapsedOf t1 s = (t1 - startTimeRef s)%Q)
  /\ ((startTimeRef s == 0)%Q ->
        startTimeRef (gameLoop t1 s) = (t1 - pauseTimeRef s)%Q
        /\ elapsedOf t1 s = (t1 - (t1 - pauseTimeRef s))%Q)
  /\ (~ (startTimeRef (gameLoop t1 s) == 0)%Q ->
        startTimeRef (gameLoop t2 (gameLoop t1 s)) = startTimeRef (gameLoop t1 s)
        /\ elapsedOf t2 (gameLoop t1 s) = (t2 - startTimeRef (gameLoop t1 s))%Q)
  /\ ((startTimeRef s == 0)%Q -> (t1 == pauseTimeRef s)%Q ->
        startTimeRef (gameLoop t2 (gameLoop t1 s)) = (t2 - pauseTimeRef s)%Q
        /\ elapsedOf t2 (gameLoop t1 s) = (t2 - (t2 - pauseTimeRef s))%Q).
Proof.
  assert (forall t st, ~ (startTimeRef st == 0)%Q ->
            startTimeRef (gameLoop t st) = startTimeRef st
            /\ elapsedOf t st = (t - startTimeRef st)%Q) as Hkeep.
  { intros t st Hne.
    destruct (gameLoop_cells t st) as (_ & _ & _ & _ & Hs & _).
    rewrite Hs. unfold elapsedOf, startOf.
    destruct (Qeq_bool (startTimeRef st) 0) eqn:E; [|now split].
    apply Qeq_bool_iff in E. contradiction. }
  assert (forall t st, (startTimeRef st == 0)%Q ->
            startTimeRef (gameLoop t st) = (t - pauseTimeRef st)%Q
            /\ elapsedOf t st = (t - (t - pauseTimeRef st))%Q) as Hfix.
  { intros t st H0.
    destruct (gameLoop_cells t st) as (_ & _ & _ & _ & Hs & _).
    rewrite Hs. unfold elapsedOf, startOf.
    apply Qeq_bool_iff in H0. rewrite H0. now split. }
  split; [apply Hkeep|]. split; [apply Hfix|]. split; [apply Hkeep|].
  intros H0 Ht.
  destruct (gameLoop_cells t1 s) as (_ & _ & _ & _ & _ & Hp).
  rewrite <- Hp. apply Hfix.
  rewrite (proj1 (Hfix t1 s H0)). lra.
Qed.

(** ** Frames: positions and late notes *)

Lemma positionAt_moveNote (e sp d : Q) (n : Note) :
  hit n = false -> currentY (moveNote e sp d n) = positionAt e sp d n.
Proof. unfold moveNote, positionAt. intros ->. reflexivity. Qed.

Lemma currentY_markHit (n : Note) : currentY (markHit n) = currentY n.
Proof. reflexivity. Qed.

(** The note of a frame's result at the place of [n]. *)
Lemma gameLoop_note (t : Q) (s : State) (n : Note) :
  let n1 :=
    moveNote (elapsedOf t s) (speedMultiplier s)
      (diffSpeedMultiplier (DIFFICULTY_SETTINGS (difficulty s))) n in
  hit n = false ->
  forall n', (n' = markHit n1 \/ n' = n1) ->
  currentY n' =
    positionAt (elapsedOf t s) (speedMultiplier s)
      (diffSpeedMultiplier (DIFFICULTY_SETTINGS (difficulty s))) n.
Proof.
  cbv zeta. intros Hh n' [->| ->].
  - rewrite currentY_markHit. now apply positionAt_moveNote.
  - now apply positionAt_moveNote.
Qed.

(** X12.  A note that is unresolved and that a frame moves beyond
    [JUDGMENT_LINE_Y + GOOD_THRESHOLD] is resolved at the latest by the
    following frame, whatever that frame's timestamp: no unhit note stays
    beyond the window for more than one frame. *)
Theorem late_note_is_resolved_next_frame (t1 t2 : Q) (s : State) :
  Forall2
    (fun n n2 =>
       hit n = false ->
       (JUDGMENT_LINE_Y + GOOD_THRESHOLD
        < currentY
            (moveNote (elapsedOf t1 s) (speedMultiplier s)
               (diffSpeedMultiplier (DIFFICULTY_SETTINGS (difficulty s))) n))%Q ->
       hit n2 = true)
    (notes s) (notes (gameLoop t2 (gameLoop t1 s))).
Proof.
  rewrite (gameLoop_notes t2 (gameLoop t1 s)).
  set (s1 := gameLoop t1 s).
  assert (notes s1 = _) as Hn1 by apply (gameLoop_notes t1 s).
  cbv zeta in Hn1.
  set (G1 := fun n : Note => _) in Hn1.
  set (G2 := fun n : Note => _).
  rewrite Hn1 at 1. rewrite map_map.
  apply Forall2_map_same. intros n Hin Hh Hlate.
  rewrite (positionAt_moveNote _ _ _ n Hh) in Hlate.
  assert (In (G1 n) (notes s1)) as Hin1 by (rewrite Hn1; now apply in_map).
  assert (currentY (G1 n) =
          positionAt (elapsedOf t1 s) (speedMultiplier s)
            (diffSpeedMultiplier (DIFFICULTY_SETTINGS (difficulty s))) n) as Hy.
  { apply (gameLoop_note t1 s n Hh). unfold G1.
    destruct (sweptId (notes s) n); [now left|now right]. }
  unfold G2. cbv zeta.
  destruct (hit (G1 n)) eqn:Hh1.
  - rewrite (moveNote_resolved _ _ _ (G1 n) Hh1).
    destruct (sweptId (notes s1) (G1 n)); [reflexivity|exact Hh1].
  - rewrite (sweptId_self (notes s1) (G1 n) Hin1); [reflexivity|].
    apply isMissed_spec. split; [exact Hh1|]. now rewrite Hy.
Qed.

Lemma positionAt_scaled (e sp d : Q) (n : Note) :
  (positionAt e sp d n
   == (e - startTime n) * (BASE_NOTE_SPEED / 1000 * sp * d))%Q.
Proof. unfold positionAt, BASE_NOTE_SPEED. field. Qed.

Lemma diffSpeed_pos (d : Difficulty) :
  (0 < diffSpeedMultiplier (DIFFICULTY_SETTINGS d))%Q.
Proof. destruct d; simpl; lra. Qed.

(** X13.  With a speed multiplier that is not negative, the motion
    update only lets unresolved notes fall: a later elapsed time never puts
    a note higher, and at any one elapsed time a note scheduled earlier is
    never above a note scheduled later.  A note is at position 0 at its
    scheduled time. *)
Theorem notes_only_fall (sp : Q) (d : Difficulty) (a b : Note) (e1 e2 : Q) :
  (0 <= sp)%Q -> hit a = false -> hit b = false ->
  let df := diffSpeedMultiplier (DIFFICULTY_SETTINGS d) in
  ((e1 <= e2)%Q ->
   (currentY (moveNote e1 sp df a) <= currentY (moveNote e2 sp df a))%Q)
  /\ ((startTime a <= startTime b)%Q ->
      (currentY (moveNote e1 sp df b) <= currentY (moveNote e1 sp df a))%Q)
  /\ (currentY (moveNote (startTime a) sp df a) == 0)%Q.
Proof.
  intros Hsp Ha Hb df.
  rewrite !(positionAt_moveNote _ _ _ a Ha), (positionAt_moveNote _ _ _ b Hb).
  assert (0 <= BASE_NOTE_SPEED / 1000 * sp * df)%Q as Hc.
  { pose proof (diffSpeed_pos d) as Hd. fold df in Hd.
    apply Qmult_le_0_compat; [|lra].
    apply Qmult_le_0_compat; [|exact Hsp].
    vm_compute. discriminate. }
  split; [|split].
  - intros He. rewrite !positionAt_scaled.
    apply Qmult_le_compat_r; [lra|exact Hc].
  - intros Hs. rewrite !positionAt_scaled.
    apply Qmult_le_compat_r; [lra|exact Hc].
  - rewrite positionAt_scaled. ring.
Qed.

(** ** Key tables *)

Lemma generateNotes_lane_bound (fuel : nat) (km : KeyMode) (d : Difficulty)
    (rnd : nat -> Q) (nextId nextId' : nat) (chart : list Note) (n : Note) :
  generateNotes fuel km d rnd nextId = Some (chart, nextId') ->
  In n chart -> (lane n < lanesOf km)%nat.
Proof.
  unfold generateNotes. cbv zeta.
  set (cfg := DIFFICULTY_SETTINGS d).
  set (patterns := generatePatterns (lanesOf km) cfg d).
  destruct (genLoop fuel d cfg patterns rnd 0 3000 nextId []) as [[res n']|] eqn:Hgen;
    [|discriminate].
  intros [= <- <-] Hin.
  destruct (genLoop_invariant d cfg patterns rnd
              (fun _ _ acc => Forall (fun n => (lane n < lanesOf km)%nat) acc))
    with (fuel := fuel) (k := 0%nat) (time := 3000%Q) (nextId := nextId)
         (acc := @nil Note) (res := res) (nextId' := n')
    as (_ & _ & Hall).
  { intros time i acc p k1 _ Hp Hacc. apply Forall_app. split; [exact Hacc|].
    apply List.Forall_forall. intros m Hm.
    destruct (emit_notes p time i m Hm) as (Hl & _).
    destruct (generatePatterns_sound _ _ _ p Hp) as (_ & _ & Hr & _).
    now apply Hr. }
  { exact Hgen. }
  { constructor. }
  rewrite List.Forall_forall in Hall. apply Hall.
  eapply Permutation_in; [apply sortBy_Permutation|exact Hin].
Qed.

Lemma keyMap_lanes (km : KeyMode) (ln : nat) :
  (ln < lanesOf km)%nat <-> exists code, keyMap km !! code = Some ln.
Proof.
  split.
  - intros Hlt. destruct km; simpl in Hlt.
    + destruct ln as [|[|[|[|ln]]]]; [| | | |lia].
      * now exists "KeyA". * now exists "KeyS".
      * now exists "KeyD". * now exists "KeyF".
    + destruct ln as [|[|[|[|[|[|ln]]]]]]; [| | | | | |lia].
      * now exists "KeyA". * now exists "KeyS". * now exists "KeyD".
      * now exists "KeyJ". * now exists "KeyK". * now exists "KeyL".
    + destruct ln as [|[|[|[|[|[|[|[|ln]]]]]]]]; [| | | | | | | |lia].
      * now exists "KeyA". * now exists "KeyS". * now exists "KeyD".
      * now exists "KeyF". * now exists "KeyJ". * now exists "KeyK".
      * now exists "KeyL". * now exists "Semicolon".
  - intros [code H]. destruct km; unfold keyMap in H;
      apply elem_of_list_to_map_2 in H;
      repeat (apply elem_of_cons in H;
              destruct H as [H|H]; [injection H as _ ->; simpl; lia|]);
      now apply elem_of_nil in H.
Qed.

(** X14.  In every key mode the key table maps codes onto exactly the
    lanes of the mode: a mapped lane is below the key count, and every
    lane below the key count has a code.  So every note of a generated
    chart lies in a lane that some key plays. *)
Theorem keyMap_covers_lanes (km : KeyMode) :
  (forall ln, (ln < lanesOf km)%nat <-> exists code, keyMap km !! code = Some ln)
  /\ (forall fuel d rnd nextId chart nextId' n,
        generateNotes fuel km d rnd nextId = Some (chart, nextId') ->
        In n chart -> exists code, keyMap km !! code = Some (lane n)).
Proof.
  split; [apply keyMap_lanes|].
  intros fuel d rnd nextId chart nextId' n Hgen Hin.
  apply keyMap_lanes. now apply (generateNotes_lane_bound _ _ _ _ _ _ _ _ Hgen).
Qed.

(** X15.  Two codes of one lane share one entry of the pressed-key set.
    While one of them is held its repeats are ignored; but the keyup of
    the other code frees the lane, and the next repeat of the key that is
    still held is judged like a fresh press. *)
Theorem alias_release_rearms_lane (s : State) (c1 c2 : string) (ln : nat) :
  gameState s = playing ->
  keyMap (keyMode s) !! c1 = Some ln ->
  keyMap (keyMode s) !! c2 = Some ln ->
  ln ∈ pressedKeys s ->
  handleKeyDown c1 s = s
  /\ notes (handleKeyDown c1 (handleKeyUp c2 s)) = notes (checkNoteHit ln s)
  /\ stats (handleKeyDown c1 (handleKeyUp c2 s)) = stats (checkNoteHit ln s).
Proof.
  intros Hp H1 H2 Hin. split.
  - unfold handleKeyDown. rewrite Hp, H1.
    destruct (decide (ln ∈ pressedKeys s)); [reflexivity|contradiction].
  - unfold handleKeyUp. rewrite H2. unfold handleKeyDown.
    cbn [gameState keyMode setPressedKeys pressedKeys]. rewrite Hp, H1.
    destruct (decide (ln ∈ pressedKeys s ∖ {[ln]})) as [Hin'|_].
    { exfalso. apply elem_of_difference in Hin'. destruct Hin' as [_ Hn].
      apply Hn. now apply elem_of_singleton_2. }
    apply (checkNoteHit_pressedKeys_irrelevant ln
             (fun prev => (prev ∖ {[ln]}) ∪ {[ln]}) s).
Qed.

(** ** Starting and restarting *)

Lemma generateNotes_ids (fuel : nat) (km : KeyMode) (d : Difficulty)
    (rnd : nat -> Q) (nextId nextId' : nat) (chart : list Note) :
  generateNotes fuel km d rnd nextId = Some (chart, nextId') ->
  (nextId <= nextId')%nat
  /\ Permutation (map id chart) (seq nextId (nextId' - nextId)).
Proof.
  unfold generateNotes. cbv zeta.
  destruct (genLoop fuel d _ _ rnd 0 3000 nextId []) as [[res n']|] eqn:Hgen;
    [|discriminate].
  intros [= <- <-].
  eapply (genLoop_ids _ _ _ _ _ nextId) in Hgen;
    [|lia|now rewrite Nat.sub_diag|constructor].
  destruct Hgen as (Hle & Hids & _). split; [exact Hle|].
  rewrite <- Hids. apply Permutation_map. apply sortBy_Permutation.
Qed.

Lemma generateNotes_id_range (fuel : nat) (km : KeyMode) (d : Difficulty)
    (rnd : nat -> Q) (nextId nextId' : nat) (chart : list Note) (n : Note) :
  generateNotes fuel km d rnd nextId = Some (chart, nextId') ->
  In n chart -> (nextId <= id n < nextId')%nat.
Proof.
  intros Hgen Hin. destruct (generateNotes_ids _ _ _ _ _ _ _ Hgen) as [Hle Hp].
  assert (In (id n) (seq nextId (nextId' - nextId))) as Hi.
  { eapply Permutation_in; [exact Hp|now apply in_map]. }
  apply in_seq in Hi. lia.
Qed.

(** X16.  A game that starts is playing with zeroed stats and an unset
    clock, so its first frame reads an elapsed time of 0; its chart is in
    time order, all unresolved, with unique ids, and the id counter has
    advanced by the number of notes.  The pressed keys, the key mode, the
    difficulty and the speed are taken over as they are. *)
Theorem startGame_opens_session (fuel : nat) (rnd : nat -> Q) (s s' : State) :
  startGame fuel rnd s = Some s' ->
  freshSession s'
  /\ chronological (notes s')
  /\ startTimeRef s' = 0%Q /\ pauseTimeRef s' = 0%Q
  /\ (forall t, (elapsedOf t s' == 0)%Q)
  /\ noteIdRef s' = (noteIdRef s + length (notes s'))%nat
  /\ pressedKeys s' = pressedKeys s
  /\ keyMode s' = keyMode s /\ difficulty s' = difficulty s
  /\ speedMultiplier s' = speedMultiplier s.
Proof.
  intros Hstart. destruct (startGame_fresh fuel rnd s s' Hstart) as [Hf Hc].
  revert Hstart. unfold startGame.
  destruct (generateNotes fuel (keyMode s) (difficulty s) rnd (noteIdRef s))
    as [[chart n']|] eqn:Hgen; [|discriminate].
  intros [= <-]. cbn.
  destruct (generateNotes_ids _ _ _ _ _ _ _ Hgen) as [Hle Hp].
  apply Permutation_length in Hp. rewrite length_map, length_seq in Hp.
  repeat split; try exact Hc; try apply Hf.
  - intros t. unfold elapsedOf, startOf. simpl. lra.
  - lia.
Qed.

Lemma checkNoteHit_noteIdRef (ln : nat) (s : State) :
  noteIdRef (checkNoteHit ln s) = noteIdRef s.
Proof.
  unfold checkNoteHit.
  destruct (List.filter (inHitWindow ln) (notes s)) as [|f r]; [reflexivity|].
  cbv zeta.
  destruct (Qltb (distanceOf (closestOf f r)) PERFECT_THRESHOLD); [reflexivity|].
  destruct (Qltb (distanceOf (closestOf f r)) GOOD_THRESHOLD); reflexivity.
Qed.

Lemma missSweep_noteIdRef (rendered : list Note) (st : State) :
  noteIdRef (missSweep rendered st) = noteIdRef st.
Proof.
  unfold missSweep. revert st.
  induction rendered as [|r rendered IH]; intros st; simpl; [reflexivity|].
  rewrite IH. unfold missOne. destruct (isMissed r); reflexivity.
Qed.

Lemma step_noteIdRef (e : Event) (s : State) :
  noteIdRef (step e s) = noteIdRef s.
Proof.
  destruct e as [code|code|t|now|]; simpl.
  - unfold handleKeyDown. destruct (gameState s); try reflexivity.
    destruct (keyMap (keyMode s) !! code) as [ln|]; [|reflexivity].
    destruct (decide (ln ∈ pressedKeys s)); [reflexivity|].
    now rewrite checkNoteHit_noteIdRef.
  - unfold handleKeyUp. now destruct (keyMap (keyMode s) !! code).
  - destruct (decide (gameState s = playing)); [|reflexivity].
    unfold gameLoop. now rewrite missSweep_noteIdRef.
  - unfold togglePause. destruct (gameState s); try reflexivity.
    now destruct (Qeq_bool (startTimeRef s) 0).
  - reflexivity.
Qed.

Lemma run_noteIdRef (es : list Event) (s : State) :
  noteIdRef (run es s) = noteIdRef s.
Proof.
  unfold run. revert s. induction es as [|e es IH]; intros s; simpl.
  - reflexivity.
  - rewrite IH. apply step_noteIdRef.
Qed.

(** X17.  The id counter is never reset: after any events and a reset, the
    chart of the next game takes only ids above every id of the previous
    chart, so no id is ever reused across sessions. *)
Theorem session_ids_never_reused (f1 f2 : nat) (r1 r2 : nat -> Q)
    (es : list Event) (s s1 s2 : State) :
  startGame f1 r1 s = Some s1 ->
  startGame f2 r2 (resetGame (run es s1)) = Some s2 ->
  forall a b, In a (notes s1) -> In b (notes s2) -> (id a < id b)%nat.
Proof.
  unfold startGame.
  destruct (generateNotes f1 (keyMode s) (difficulty s) r1 (noteIdRef s))
    as [[chart1 n1]|] eqn:Hg1; [|discriminate].
  intros [= <-].
  destruct (generateNotes f2 _ _ r2 _) as [[chart2 n2]|] eqn:Hg2; [|discriminate].
  intros [= <-]. cbn [notes]. intros a b Ha Hb.
  pose proof (generateNotes_id_range _ _ _ _ _ _ _ a Hg1 Ha) as Hra.
  pose proof (generateNotes_id_range _ _ _ _ _ _ _ b Hg2 Hb) as Hrb.
  change (noteIdRef (resetGame (run es ?x))) with (noteIdRef (run es x)) in Hrb.
  rewrite run_noteIdRef in Hrb. cbn [noteIdRef] in Hrb. lia.
Qed.

(** ** The first variant: judgment, frames and [maxCombo] *)

Lemma V1_find_first (ln : nat) (pre post : list V1.Note) (h : V1.Note) :
  Forall (fun n => V1.inHitWindow ln n = false) pre ->
  V1.inHitWindow ln h = true ->
  List.find (V1.inHitWindow ln) (pre ++ h :: post) = Some h.
Proof.
  induction 1 as [|x pre Hx _ IH]; intros Hh; simpl.
  - now rewrite Hh.
  - rewrite Hx. now apply IH.
Qed.

(** X18.  The first variant judges the first note of the list that is
    unresolved, in the lane and strictly within 100 of the line, whether
    or not a later note is nearer: that note is marked by id, the combo
    goes up by one and the score by 1000 (distance below 50) or 500 times
    the combo after the hit. *)
Theorem V1_first_in_list_is_judged (ln : nat) (s : V1.State)
    (pre post : list V1.Note) (h : V1.Note) :
  V1.notes s = pre ++ h :: post ->
  Forall (fun n => V1.inHitWindow ln n = false) pre ->
  V1.inHitWindow ln h = true ->
  V1.notes (V1.checkNoteHit ln s) = V1.markHitById (V1.id h) (V1.notes s)
  /\ combo (V1.stats (V1.checkNoteHit ln s)) = combo (V1.stats s) + 1
  /\ score (V1.stats (V1.checkNoteHit ln s)) =
       score (V1.stats s)
       + (if Qltb (V1.distanceOf h) V1.PERFECT_THRESHOLD then 1000 else 500)
         * (combo (V1.stats s) + 1).
Proof.
  intros Hn Hpre Hh. unfold V1.checkNoteHit.
  rewrite Hn, (V1_find_first ln pre post h Hpre Hh). rewrite <- Hn.
  assert (Qltb (V1.distanceOf h) V1.GOOD_THRESHOLD = true) as Hg.
  { unfold V1.inHitWindow in Hh. apply andb_true_iff in Hh. apply Hh. }
  destruct (Qltb (V1.distanceOf h) V1.PERFECT_THRESHOLD).
  - simpl. now repeat split.
  - rewrite Hg. simpl. now repeat split.
Qed.

Lemma V1_missSweep_notes (s : V1.State) :
  V1.notes (V1.missSweep s)
  = map (fun note => if V1.isMissed note then V1.markHit note else note)
      (V1.notes s).
Proof.
  unfold V1.missSweep.
  match goal with |- V1.notes (fold_left ?f ?l ?st) = _ =>
    assert (forall l' st', V1.notes (fold_left f l' st') = V1.notes st') as Hfold end.
  { induction l' as [|x l' IH]; intros st'; simpl; [reflexivity|].
    rewrite IH. destruct (V1.isMissed x); reflexivity. }
  rewrite Hfold. reflexivity.
Qed.

Lemma V1_missSweep_stats (s : V1.State) :
  V1.stats (V1.missSweep s)
  = Nat.iter (length (List.filter V1.isMissed (V1.notes s))) addMiss (V1.stats s).
Proof.
  unfold V1.missSweep.
  change (V1.stats s) with (V1.stats (V1.setNotes
    (map (fun note => if V1.isMissed note then V1.markHit note else note)) s)).
  generalize (V1.setNotes
    (map (fun note => if V1.isMissed note then V1.markHit note else note)) s).
  induction (V1.notes s) as [|x l IH]; intros st; simpl; [reflexivity|].
  rewrite IH. destruct (V1.isMissed x); simpl; [|reflexivity].
  generalize (length (List.filter V1.isMissed l)). intros k.
  induction k as [|k IHk]; simpl; [reflexivity|]. now rewrite IHk.
Qed.

(** X19.  In the first variant the miss sweep reads the positions that the
    same frame has just written: after a frame no unresolved note is
    beyond [JUDGMENT_LINE_Y + GOOD_THRESHOLD], and the miss counter has
    grown by the number of unresolved notes the frame moved beyond it. *)
Theorem V1_frame_leaves_no_late_note (t : Q) (s : V1.State) :
  Forall
    (fun n => V1.hit n = false ->
              (V1.y n <= V1.JUDGMENT_LINE_Y + V1.GOOD_THRESHOLD)%Q)
    (V1.notes (V1.gameLoop t s))
  /\ (let start :=
        if Qeq_bool (V1.startTimeRef s) 0 then t else V1.startTimeRef s in
      miss (V1.stats (V1.gameLoop t s)) =
      miss (V1.stats s)
      + Z.of_nat (length (List.filter V1.isMissed
                            (map (V1.moveNote (t - start)) (V1.notes s))))).
Proof.
  unfold V1.gameLoop. cbv zeta. split.
  - rewrite V1_missSweep_notes. apply List.Forall_forall. intros n Hin Hh.
    apply in_map_iff in Hin. destruct Hin as (m & <- & _).
    destruct (V1.isMissed m) eqn:Em; [discriminate Hh|].
    unfold V1.isMissed in Em. rewrite Hh in Em. simpl in Em.
    now apply Qltb_ge in Em.
  - rewrite V1_missSweep_stats, iter_addMiss.
    cbn [V1.notes V1.setNotes V1.stats].
    destruct (length _) as [|k]; [simpl; lia|reflexivity].
Qed.

Lemma V1_gameLoop_stats (t : Q) (s : V1.State) :
  exists k, V1.stats (V1.gameLoop t s) = Nat.iter k addMiss (V1.stats s).
Proof.
  unfold V1.gameLoop. cbv zeta. rewrite V1_missSweep_stats.
  eexists. reflexivity.
Qed.

Lemma V1_checkNoteHit_stats (ln : nat) (s : V1.State) :
  V1.stats (V1.checkNoteHit ln s) = V1.stats s
  \/ V1.stats (V1.checkNoteHit ln s) = V1.addPerfect 1000 (V1.stats s)
  \/ V1.stats (V1.checkNoteHit ln s) = V1.addGood 500 (V1.stats s).
Proof.
  unfold V1.checkNoteHit.
  destruct (List.find (V1.inHitWindow ln) (V1.notes s)) as [h|]; [|now left].
  destruct (Qltb (V1.distanceOf h) V1.PERFECT_THRESHOLD); [right; now left|].
  destruct (Qltb (V1.distanceOf h) V1.GOOD_THRESHOLD); [right; now right|now left].
Qed.

(** The effect keeps [maxCombo] the larger of itself and the new combo. *)
Lemma V1step_maxCombo (e : V1Event) (s : V1.State) :
  0 <= combo (V1.stats s) <= maxCombo (V1.stats s) ->
  0 <= combo (V1.stats (V1step e s)) <= maxCombo (V1.stats (V1step e s))
  /\ maxCombo (V1.stats (V1step e s))
     = Z.max (maxCombo (V1.stats s)) (combo (V1.stats (V1step e s))).
Proof.
  intros H.
  assert (forall h : V1.State -> V1.State,
            (V1.stats (h s) = V1.stats s
             \/ V1.stats (h s) = V1.addPerfect 1000 (V1.stats s)
             \/ V1.stats (h s) = V1.addGood 500 (V1.stats s)
             \/ exists k, V1.stats (h s) = Nat.iter k addMiss (V1.stats s)) ->
            0 <= combo (V1.stats (V1.withEffects h s))
              <= maxCombo (V1.stats (V1.withEffects h s))
            /\ maxCombo (V1.stats (V1.withEffects h s))
               = Z.max (maxCombo (V1.stats s))
                   (combo (V1.stats (V1.withEffects h s)))) as Hgen.
  { intros h Hh. unfold V1.withEffects.
    destruct (combo (V1.stats (h s)) =? combo (V1.stats s)) eqn:E.
    - apply Z.eqb_eq in E. destruct Hh as [Hh|[Hh|[Hh|[k Hh]]]];
        rewrite Hh in *; clear Hh.
      + lia.
      + simpl in E. lia.
      + simpl in E. lia.
      + rewrite iter_addMiss in *. destruct k as [|[|k]]; simpl in *; lia.
    - apply Z.eqb_neq in E. cbn [V1.stats V1.setStats].
      destruct Hh as [Hh|[Hh|[Hh|[k Hh]]]]; rewrite Hh in *; clear Hh.
      + lia.
      + simpl in *. lia.
      + simpl in *. lia.
      + rewrite iter_addMiss in *. destruct k as [|[|k]]; simpl in *; lia. }
  destruct e as [ln|t]; unfold V1step; apply Hgen.
  - destruct (V1_checkNoteHit_stats ln s) as [Hs|[Hs|Hs]]; auto.
  - right. right. right. apply V1_gameLoop_stats.
Qed.

Lemma V1peak_ge (es : list V1Event) (s : V1.State) :
  combo (V1.stats s) <= V1peak es s.
Proof. destruct es; simpl; lia. Qed.

(** X20.  In the first variant, whose effect on [stats.combo] follows
    every judged keypress and every frame, [maxCombo] is always the
    largest combo the session has held: after any run from stats with
    0 <= combo <= maxCombo it is the larger of the old [maxCombo] and the
    peak of the combo over the run. *)
Theorem V1_maxCombo_is_peak (es : list V1Event) (s : V1.State) :
  0 <= combo (V1.stats s) <= maxCombo (V1.stats s) ->
  maxCombo (V1.stats (V1run es s))
  = Z.max (maxCombo (V1.stats s)) (V1peak es s).
Proof.
  unfold V1run. revert s. induction es as [|e es IH]; intros s H; simpl.
  - lia.
  - destruct (V1step_maxCombo e s H) as [H' Hmc].
    rewrite (IH _ H'), Hmc.
    pose proof (V1peak_ge es (V1step e s)). lia.
Qed.

(** X21.  The first variant keeps no pause offset: a pause leaves the clock
    reference alone and the resume unsets it, so the first frame after a
    resume reads an elapsed time of 0 however long the game has run, and
    puts every note back where it was when the game started. *)
Theorem V1_resume_rewinds (s : V1.State) (t' : Q) :
  V1.gameState s = playing ->
  let s' := V1.gameLoop t' (V1.togglePause (V1.togglePause s)) in
  (V1.currentTime s' == 0)%Q
  /\ Forall
       (fun n => (V1.y n == -100 - V1.time n / 1000 * V1.NOTE_SPEED)%Q)
       (V1.notes s').
Proof.
  intros Hp. cbv zeta. split; [now apply V1_resume_restarts_clock|].
  unfold V1.togglePause at 2. rewrite Hp.
  unfold V1.togglePause. cbn [V1.gameState].
  unfold V1.gameLoop. cbv zeta. cbn [V1.startTimeRef].
  change (Qeq_bool 0 0) with true. cbv iota.
  rewrite V1_missSweep_notes. cbn [V1.notes V1.setNotes].
  rewrite map_map. apply List.Forall_forall. intros n Hin.
  apply in_map_iff in Hin. destruct Hin as (m & <- & _).
  assert (V1.y (V1.moveNote (t' - t') m)
          == -100 - V1.time (V1.moveNote (t' - t') m) / 1000 * V1.NOTE_SPEED)%Q
    as Hy.
  { unfold V1.moveNote, V1.NOTE_SPEED. cbn [V1.y V1.time]. field. }
  destruct (V1.isMissed (V1.moveNote (t' - t') m)); exact Hy.
Qed.

(** ** Key release and reset *)

(** X22.  A keyup works in every session state and touches nothing but
    the pressed-key set: the session state, the notes, the stats, the
    judgment shown, the speed, the key mode, the difficulty, the two clock
    cells and the id counter are as before, and the pressed-key set loses
    at most the lane of the code (nothing for a code outside the key map).
    Releasing twice is releasing once; and a press followed by the release
    of the same code leaves the set as it was before the press, when the
    lane was not pressed then. *)
Theorem keyup_releases (code : string) (s : State) :
  handleKeyUp code s
  = mkState (gameState s) (notes s) (stats s)
      (match keyMap (keyMode s) !! code with
       | Some ln => pressedKeys s ∖ {[ ln ]}
       | None => pressedKeys s
       end)
      (judgment s) (speedMultiplier s) (keyMode s) (difficulty s)
      (startTimeRef s) (pauseTimeRef s) (noteIdRef s)
  /\ gameState (handleKeyUp code s) = gameState s
  /\ notes (handleKeyUp code s) = notes s
  /\ stats (handleKeyUp code s) = stats s
  /\ judgment (handleKeyUp code s) = judgment s
  /\ speedMultiplier (handleKeyUp code s) = speedMultiplier s
  /\ keyMode (handleKeyUp code s) = keyMode s
  /\ difficulty (handleKeyUp code s) = difficulty s
  /\ startTimeRef (handleKeyUp code s) = startTimeRef s
  /\ pauseTimeRef (handleKeyUp code s) = pauseTimeRef s
  /\ noteIdRef (handleKeyUp code s) = noteIdRef s
  /\ pressedKeys (handleKeyUp code s) ⊆ pressedKeys s
  /\ handleKeyUp code (handleKeyUp code s) = handleKeyUp code s
  /\ (forall ln, keyMap (keyMode s) !! code = Some ln -> ln ∉ pressedKeys s ->
        pressedKeys (handleKeyUp code (handleKeyDown code s)) = pressedKeys s).
Proof.
  assert (handleKeyUp code s
          = mkState (gameState s) (notes s) (stats s)
              (match keyMap (keyMode s) !! code with
               | Some ln => pressedKeys s ∖ {[ ln ]}
               | None => pressedKeys s
               end)
              (judgment s) (speedMultiplier s) (keyMode s) (difficulty s)
              (startTimeRef s) (pauseTimeRef s) (noteIdRef s)) as Heq.
  { unfold handleKeyUp.
    destruct (keyMap (keyMode s) !! code); [reflexivity|].
    now destruct s. }
  split; [exact Heq|].
  rewrite Heq at 1 2 3 4 5 6 7 8 9 10 11.
  cbn [gameState notes stats judgment speedMultiplier keyMode difficulty
       startTimeRef pauseTimeRef noteIdRef pressedKeys].
  do 10 (split; [reflexivity|]).
  split.
  { destruct (keyMap (keyMode s) !! code) as [ln|]; [|reflexivity].
    intros x Hx. apply elem_of_difference in Hx. now destruct Hx. }
  destruct (keyMap (keyMode s) !! code) as [ln|] eqn:Hmap.
  - split.
    + unfold handleKeyUp. rewrite Hmap. cbn [keyMode setPressedKeys].
      rewrite Hmap. unfold setPressedKeys. cbn. f_equal.
      rewrite difference_difference_l_L. now rewrite union_idemp_L.
    + intros ln' [= <-] Hnin.
      assert (pressedKeys s ## {[ln]}) as Hdisj
        by now apply disjoint_singleton_r.
      destruct (handleKeyDown_pressed code s) as [Hkm _].
      unfold handleKeyUp. rewrite Hkm, Hmap. cbn [pressedKeys setPressedKeys].
      unfold handleKeyDown. rewrite Hmap.
      destruct (decide (ln ∈ pressedKeys s)); [contradiction|].
      assert (forall st, pressedKeys st = pressedKeys s ->
                pressedKeys st ∖ {[ln]} = pressedKeys s) as Hsame.
      { intros st ->. now apply difference_disjoint_L. }
      destruct (gameState s); try (now apply Hsame).
      rewrite (proj1 (proj2 (checkNoteHit_cells ln _))).
      cbn [pressedKeys setPressedKeys].
      rewrite difference_union_distr_l_L, difference_diag_L, union_empty_r_L.
      now apply difference_disjoint_L.
  - split.
    + unfold handleKeyUp. rewrite Hmap. now rewrite Hmap.
    + intros ln [=].
Qed.

Lemma step_inert (e : Event) (s : State) :
  gameState s = menu \/ gameState s = ended ->
  gameState (step e s) = gameState s
  /\ notes (step e s) = notes s
  /\ stats (step e s) = stats s
  /\ startTimeRef (step e s) = startTimeRef s
  /\ pauseTimeRef (step e s) = pauseTimeRef s.
Proof.
  intros Hm. destruct e as [code|code|t|now|].
  - apply step_frozen; [destruct Hm as [-> | ->]; discriminate|reflexivity].
  - apply step_frozen; [destruct Hm as [-> | ->]; discriminate|reflexivity].
  - apply step_frozen; [destruct Hm as [-> | ->]; discriminate|reflexivity].
  - simpl. unfold togglePause. destruct Hm as [Hm|Hm]; rewrite Hm; now repeat split.
  - apply step_frozen; [destruct Hm as [-> | ->]; discriminate|reflexivity].
Qed.

(** X23.  A reset puts the session into the menu with an empty chart and
    an unset clock, keeping the stats as they were; and in the menu no
    event at all, a pause toggle included, changes the session state, the
    notes, the stats or the clock. *)
Theorem reset_then_inert (es : list Event) (s : State) :
  gameState (run es (resetGame s)) = menu
  /\ notes (run es (resetGame s)) = []
  /\ stats (run es (resetGame s)) = stats s
  /\ startTimeRef (run es (resetGame s)) = 0%Q
  /\ pauseTimeRef (run es (resetGame s)) = 0%Q.
Proof.
  assert (forall st, gameState st = menu ->
            gameState (run es st) = menu
            /\ notes (run es st) = notes st
            /\ stats (run es st) = stats st
            /\ startTimeRef (run es st) = startTimeRef st
            /\ pauseTimeRef (run es st) = pauseTimeRef st) as Hrun.
  { unfold run. induction es as [|e es IH]; intros st Hm; simpl.
    - now repeat split.
    - destruct (step_inert e st (or_introl Hm)) as (Hg & Hn & Hs & Hst & Hpt).
      destruct (IH (step e st)) as (Hg' & Hn' & Hs' & Hst' & Hpt').
      { now rewrite Hg. }
      rewrite Hg', Hn', Hs', Hst', Hpt'. now repeat split. }
  destruct (Hrun (resetGame s) eq_refl) as (Hg & Hn & Hs & Hst & Hpt).
  rewrite Hg, Hn, Hs, Hst, Hpt. now repeat split.
Qed.

(** ** Note elements *)

Lemma createElements_grows (l : list Note) (mounted : bool) (m : gset nat) (i : nat) :
  i ∈ m ->
  i ∈ fold_left
        (fun acc note =>
           if decide (id note ∈ acc) then acc
           else if mounted then acc ∪ {[ id note ]} else acc) l m.
Proof.
  revert m. induction l as [|x l IH]; intros m Hin; simpl; [exact Hin|].
  apply IH. destruct (decide (id x ∈ m)); [exact Hin|].
  destruct mounted; [|exact Hin]. apply elem_of_union. now left.
Qed.

Lemma createElements_covers (l : list Note) (m : gset nat) (note : Note) :
  In note l ->
  id note ∈ fold_left
        (fun acc n =>
           if decide (id n ∈ acc) then acc
           else if true then acc ∪ {[ id n ]} else acc) l m.
Proof.
  revert m. induction l as [|x l IH]; intros m; simpl; [intros []|].
  intros [->|Hin]; [|now apply IH].
  apply (createElements_grows l true).
  destruct (decide (id note ∈ m)); [assumption|].
  apply elem_of_union. right. now apply elem_of_singleton_2.
Qed.

(** X24.  The element bookkeeping of a frame, read as a set of note ids:
    afterwards every id that has an element belongs to a rendered note that
    is not below the screen (position at most [GAME_HEIGHT + 100]); and
    when the game area is mounted and ids are unique, every active note
    (unresolved, position strictly between -150 and [GAME_HEIGHT + 100])
    has an element. *)
Theorem elements_track_notes (rendered : list Note) (mounted : bool)
    (m : gset nat) :
  (forall i, i ∈ elementsAfterFrame rendered mounted m ->
     exists note, In note rendered /\ id note = i
                  /\ (currentY note <= GAME_HEIGHT + 100)%Q)
  /\ (mounted = true -> uniqueIds rendered ->
      forall note, In note rendered -> isActive note = true ->
        id note ∈ elementsAfterFrame rendered mounted m).
Proof.
  unfold elementsAfterFrame, cleanElements. split.
  - intros i Hi. apply elem_of_filter in Hi. destruct Hi as [Hoff _].
    unfold offScreen in Hoff.
    destruct (List.find (fun n => Nat.eqb (id n) i) rendered) as [note|] eqn:Ef;
      [|discriminate].
    apply find_some in Ef. destruct Ef as [Hin Hid]. apply Nat.eqb_eq in Hid.
    exists note. repeat split; try assumption. now apply Qltb_ge.
  - intros -> Hu note Hin Hact. apply elem_of_filter. split.
    + unfold offScreen.
      destruct (List.find (fun n => Nat.eqb (id n) (id note)) rendered)
        as [n0|] eqn:Ef.
      * apply find_some in Ef. destruct Ef as [Hin0 Hid]. apply Nat.eqb_eq in Hid.
        rewrite (uniqueIds_inj rendered n0 note Hu Hin0 Hin Hid).
        unfold isActive in Hact. rewrite !andb_true_iff in Hact.
        destruct Hact as [[_ Hlt] _]. apply Qltb_lt in Hlt.
        apply Qltb_ge. now apply Qlt_le_weak.
      * pose proof (find_none _ _ Ef note Hin) as Hn. cbv beta in Hn.
        rewrite Nat.eqb_refl in Hn. discriminate.
    + unfold createElements. apply createElements_covers.
      apply filter_In. now split.
Qed.

(** ** The generator of the speed-only variant *)

Lemma V3_genLoop_is_genLoop (fuel : nat) (rnd : nat -> Q) :
  forall (k : nat) (time : Q) (nextId : nat) (newNotes : list Note),
    V3.genLoop fuel rnd k time nextId newNotes
    = genLoop fuel normal V3config V3.patterns rnd k time nextId newNotes.
Proof.
  induction fuel as [|fuel IH]; intros k time nextId newNotes;
    cbn [V3.genLoop genLoop]; destruct (Qltb time 90000); try reflexivity.
  unfold selectPattern. destruct (decide (normal = easy)) as [He|_];
    [discriminate He|].
  destruct (arrayAt V3.patterns (randomIndex (rnd k) (length V3.patterns)))
    as [p|]; [|reflexivity].
  apply IH.
Qed.

Lemma V3_patterns_lanes (p : list nat) (ln : nat) :
  In p V3.patterns -> In ln p -> (ln < 4)%nat.
Proof.
  assert (forallb (forallb (fun l => (l <? 4)%nat)) V3.patterns = true) as H
    by reflexivity.
  rewrite forallb_forall in H. intros Hp Hln.
  specialize (H p Hp). rewrite forallb_forall in H.
  apply Nat.ltb_lt. now apply H.
Qed.

(** X25.  The generator of the speed-only variant: a chart it returns is
    sorted by non-decreasing [startTime], keeps to lanes 0 to 3, holds
    only unresolved notes and gives no id twice, whatever the draws; and
    with draws in [0, 1) it returns a chart within 218 iterations. *)
Theorem V3_chart_is_well_formed (rnd : nat -> Q) (nextId : nat) :
  (forall fuel chart nextId',
     V3.generateNotes fuel rnd nextId = Some (chart, nextId') ->
     chronological chart
     /\ Forall (fun n => (lane n < 4)%nat /\ hit n = false) chart
     /\ uniqueIds chart)
  /\ ((forall i, (0 <= rnd i)%Q /\ (rnd i < 1)%Q) ->
      forall fuel, (V3.enoughFuel <= fuel)%nat ->
      exists chart nextId', V3.generateNotes fuel rnd nextId = Some (chart, nextId')).
Proof.
  split.
  - intros fuel chart nextId'. unfold V3.generateNotes.
    rewrite V3_genLoop_is_genLoop.
    destruct (genLoop fuel normal V3config V3.patterns rnd 0 3000 nextId [])
      as [[res n']|] eqn:Hgen; [|discriminate].
    intros [= <- <-].
    pose proof (sortBy_Permutation byStartTime res) as Hperm.
    split; [apply sortBy_chronological|]. split.
    + destruct (genLoop_invariant normal V3config V3.patterns rnd
                  (fun _ _ acc =>
                     Forall (fun n => (lane n < 4)%nat /\ hit n = false) acc))
        with (fuel := fuel) (k := 0%nat) (time := 3000%Q) (nextId := nextId)
             (acc := @nil Note) (res := res) (nextId' := n')
        as (_ & _ & Hall).
      { intros time i acc p k1 _ Hp Hacc. apply Forall_app. split; [exact Hacc|].
        apply List.Forall_forall. intros n Hn.
        destruct (emit_notes p time i n Hn) as (Hl & _ & _ & Hh).
        split; [|exact Hh]. now apply (V3_patterns_lanes p). }
      { exact Hgen. }
      { constructor. }
      eapply Permutation_Forall; [symmetry; exact Hperm|exact Hall].
    + eapply (genLoop_ids _ _ _ _ _ nextId) in Hgen;
        [|lia|now rewrite Nat.sub_diag|constructor].
      destruct Hgen as (_ & Hids & _). unfold uniqueIds.
      eapply Permutation_NoDup.
      * apply Permutation_map. symmetry. exact Hperm.
      * rewrite Hids. apply seq_NoDup.
  - intros Hr fuel Hfuel. unfold V3.generateNotes.
    rewrite V3_genLoop_is_genLoop.
    destruct (genLoop_returns fuel normal V3config V3.patterns rnd Hr)
      with (k := 0%nat) (time := 3000%Q) (nextId := nextId) (newNotes := @nil Note)
      as [[res n'] Hgen].
    + vm_compute. discriminate.
    + vm_compute. reflexivity.
    + vm_compute. discriminate.
    + assert (inject_Z 218 <= inject_Z (Z.of_nat fuel))%Q as Hf.
      { rewrite <- Zle_Qle. unfold V3.enoughFuel in Hfuel. lia. }
      change (inject_Z 218) with 218%Q in Hf.
      change (noteIntervalMin V3config) with 400%Q.
      set (f := inject_Z (Z.of_nat fuel)) in *. lra.
    + rewrite Hgen. eauto.
Qed.

(** ** The further theorems at work *)

Lemma patterns_well_formed_witness :
  List.NoDup [1; 3]%nat /\ (forall ln, In ln [1; 3]%nat -> (ln < 4)%nat).
Proof.
  destruct (patterns_well_formed 4 (DIFFICULTY_SETTINGS normal) normal [1; 3]%nat)
    as (_ & Hnd & Hlt & _).
  - vm_compute. auto 10.
  - now split.
Defined.

Lemma chart_well_formed_witness :
  exists chart nextId',
    generateNotes enoughFuel Key8 hard halfDraws 7 = Some (chart, nextId')
    /\ chart <> [] /\ length chart = (nextId' - 7)%nat.
Proof.
  destruct (generateNotes enoughFuel Key8 hard halfDraws 7) as [[chart n']|] eqn:E;
    [|vm_compute in E; discriminate E].
  exists chart, n'. split; [reflexivity|].
  destruct (chart_well_formed enoughFuel Key8 hard halfDraws 7 n' chart E)
    as (Hne & _ & _ & Hlen & _).
  now split.
Defined.

Lemma chart_keeps_emission_order_witness :
  exists chart nextId',
    generateNotes enoughFuel Key6 hard halfDraws 0 = Some (chart, nextId')
    /\ map id chart = seq 0 (length chart).
Proof.
  destruct (generateNotes enoughFuel Key6 hard halfDraws 0) as [[chart n']|] eqn:E;
    [|vm_compute in E; discriminate E].
  exists chart, n'. split; [reflexivity|].
  apply (chart_keeps_emission_order enoughFuel Key6 hard halfDraws 0 n' chart);
    [|exact E].
  intros i. vm_compute. discriminate.
Defined.

Lemma chart_notes_apart_witness :
  exists chart nextId',
    generateNotes enoughFuel Key4 normal halfDraws 0 = Some (chart, nextId')
    /\ (forall a b, In a chart -> In b chart -> a <> b -> apart a b).
Proof.
  destruct (generateNotes enoughFuel Key4 normal halfDraws 0) as [[chart n']|] eqn:E;
    [|vm_compute in E; discriminate E].
  exists chart, n'. split; [reflexivity|].
  apply (chart_notes_apart enoughFuel Key4 normal halfDraws 0 n' chart); [|exact E].
  intros i. vm_compute. discriminate.
Defined.

Lemma easy_charts_have_no_chords_witness :
  exists chart nextId',
    generateNotes enoughFuel Key4 easy halfDraws 0 = Some (chart, nextId')
    /\ (forall a b, In a chart -> In b chart -> a <> b ->
          ~ (startTime a == startTime b)%Q).
Proof.
  destruct (generateNotes enoughFuel Key4 easy halfDraws 0) as [[chart n']|] eqn:E;
    [|vm_compute in E; discriminate E].
  exists chart, n'. split; [reflexivity|].
  apply (easy_charts_have_no_chords enoughFuel Key4 halfDraws 0 n' chart); [|exact E].
  intros i. vm_compute. discriminate.
Defined.

Lemma session_stats_invariant_witness :
  statsInv (stats (run twoPresses twoInWindow))
  /\ countedNotes (stats (run twoPresses twoInWindow)) <= 2.
Proof.
  apply (session_stats_invariant twoPresses twoInWindow).
  unfold freshSession. repeat split.
  - simpl. repeat constructor.
  - unfold uniqueIds. simpl. repeat constructor; simpl; intuition discriminate.
Defined.

Lemma frozen_unless_playing_witness :
  notes (run frozenTrace pausedSession) = notes pausedSession
  /\ stats (run frozenTrace pausedSession) = stats pausedSession.
Proof.
  destruct (frozen_unless_playing frozenTrace pausedSession)
    as (_ & Hn & Hs & _).
  - vm_compute. discriminate.
  - repeat constructor.
  - now split.
Defined.

Lemma clock_reference_is_fixed_once_nonzero_witness :
  (startTimeRef (gameLoop 1500 (gameLoop 1000 midSession)) = 400%Q
   /\ elapsedOf 1500 (gameLoop 1000 midSession) = (1500 - 400)%Q)
  /\ startTimeRef (gameLoop 2000 (gameLoop 600 resumedAt600))
     = (2000 - 600)%Q.
Proof.
  split.
  - destruct (clock_reference_is_fixed_once_nonzero midSession 1000 1500)
      as (Hk & _ & Hk2 & _).
    destruct Hk as [Hk _]; [vm_compute; discriminate|].
    destruct Hk2 as [Hs He].
    + rewrite Hk. vm_compute. discriminate.
    + rewrite Hs, He, Hk. now split.
  - destruct (clock_reference_is_fixed_once_nonzero resumedAt600 600 2000)
      as (_ & _ & _ & Hstuck).
    destruct Hstuck as [Hs _]; [reflexivity|reflexivity|exact Hs].
Defined.

Lemma notes_only_fall_witness :
  (currentY (moveNote 4000 2 (12 # 10) (mkNote 1 0 1200 490 false))
   <= currentY (moveNote 4000 2 (12 # 10) (mkNote 0 0 1000 545 false)))%Q.
Proof.
  destruct (notes_only_fall 2 hard (mkNote 0 0 1000 545 false)
              (mkNote 1 0 1200 490 false) 4000 4000)
    as (_ & Hord & _).
  - vm_compute. discriminate.
  - reflexivity.
  - reflexivity.
  - apply Hord. vm_compute. discriminate.
Defined.

Lemma alias_release_rearms_lane_witness :
  handleKeyDown "KeyA" holdingLane0 = holdingLane0
  /\ stats (handleKeyDown "KeyA" (handleKeyUp "ArrowLeft" holdingLane0))
     = stats (checkNoteHit 0 holdingLane0).
Proof.
  destruct (alias_release_rearms_lane holdingLane0 "KeyA" "ArrowLeft" 0%nat)
    as (Hheld & _ & Hs).
  - reflexivity.
  - reflexivity.
  - reflexivity.
  - change (0%nat ∈ ({[ 0%nat ]} : gset nat)).
    apply elem_of_singleton_2. reflexivity.
  - now split.
Defined.

Lemma startGame_opens_session_witness :
  exists s', startGame enoughFuel halfDraws menuState = Some s'
             /\ freshSession s' /\ (elapsedOf 1000 s' == 0)%Q.
Proof.
  destruct (startGame enoughFuel halfDraws menuState) as [s'|] eqn:E;
    [|vm_compute in E; discriminate E].
  exists s'. split; [reflexivity|].
  destruct (startGame_opens_session enoughFuel halfDraws menuState s' E)
    as (Hf & _ & _ & _ & He & _).
  split; [exact Hf|apply He].
Defined.

Lemma session_ids_never_reused_witness :
  exists s1 s2,
    startGame enoughFuel halfDraws menuState = Some s1
    /\ startGame enoughFuel halfDraws (resetGame (run firstHit s1)) = Some s2
    /\ Forall (fun b => Forall (fun a => (id a < id b)%nat) (notes s1)) (notes s2).
Proof.
  destruct (startGame enoughFuel halfDraws menuState) as [s1|] eqn:E1;
    [|vm_compute in E1; discriminate E1].
  pose proof E1 as E1c. vm_compute in E1c. injection E1c as <-.
  match type of E1 with _ = Some ?t => set (s1 := t) in * end.
  destruct (startGame enoughFuel halfDraws (resetGame (run firstHit s1)))
    as [s2|] eqn:E2; [|vm_compute in E2; discriminate E2].
  exists s1, s2. split; [reflexivity|]. split; [exact E2|].
  apply List.Forall_forall. intros b Hb.
  apply List.Forall_forall. intros a Ha.
  exact (session_ids_never_reused enoughFuel enoughFuel halfDraws halfDraws
           firstHit menuState s1 s2 E1 E2 a b Ha Hb).
Defined.

Lemma V1_first_in_list_is_judged_witness :
  V1.notes (V1.checkNoteHit 0 V1twoNotes)
  = V1.markHitById 0 (V1.notes V1twoNotes).
Proof.
  apply (V1_first_in_list_is_judged 0%nat V1twoNotes []
           [V1.mkNote 1 0 1300 500 false] (V1.mkNote 0 0 1000 590 false)).
  - reflexivity.
  - constructor.
  - reflexivity.
Defined.

Lemma V1_maxCombo_is_peak_witness :
  maxCombo (V1.stats (V1run V1trace V1twoNotes))
  = Z.max 1 (V1peak V1trace V1twoNotes).
Proof.
  apply (V1_maxCombo_is_peak V1trace V1twoNotes).
  vm_compute. split; discriminate.
Defined.

Lemma V1_resume_rewinds_witness :
  (V1.currentTime
     (V1.gameLoop 7000 (V1.togglePause (V1.togglePause V1twoNotes))) == 0)%Q.
Proof.
  apply (V1_resume_rewinds V1twoNotes 7000). reflexivity.
Defined.

(** ** How many notes a chart holds *)

Lemma emit_length (p : list nat) (time : Q) (nextId : nat) :
  length (emit p time nextId) = length p.
Proof.
  revert nextId. induction p as [|ln rest IH]; intros nextId; simpl;
    [reflexivity|]. now rewrite IH.
Qed.

(** X26.  With draws in [0, 1) every step pushes between one and four
    notes and moves the cursor by at least the smallest and at most the
    largest interval of the difficulty, from 3000 up to the horizon 90000:
    so a chart of [n] notes satisfies [87000 <= max * n] and
    [min * n < 4 * (87000 + min)]; whatever the difficulty it holds at
    least 73 and at most 1743 notes. *)
Theorem chart_density (fuel : nat) (km : KeyMode) (d : Difficulty)
    (rnd : nat -> Q) (nextId nextId' : nat) (chart : list Note) :
  (forall i, (0 <= rnd i)%Q /\ (rnd i < 1)%Q) ->
  generateNotes fuel km d rnd nextId = Some (chart, nextId') ->
  (87000 <= noteIntervalMax (DIFFICULTY_SETTINGS d)
            * inject_Z (Z.of_nat (length chart)))%Q
  /\ (noteIntervalMin (DIFFICULTY_SETTINGS d) * inject_Z (Z.of_nat (length chart))
      < 4 * (87000 + noteIntervalMin (DIFFICULTY_SETTINGS d)))%Q
  /\ (73 <= length chart <= 1743)%nat.
Proof.
  intros Hr. unfold generateNotes. cbv zeta.
  set (cfg := DIFFICULTY_SETTINGS d).
  set (patterns := generatePatterns (lanesOf km) cfg d).
  destruct (genLoop fuel d cfg patterns rnd 0 3000 nextId []) as [[res n']|] eqn:Hgen;
    [|discriminate].
  intros [= <- <-].
  rewrite (Permutation_length (sortBy_Permutation byStartTime res)).
  destruct (genLoop_invariant d cfg patterns rnd
              (fun time _ acc =>
                 (time - 3000
                  <= noteIntervalMax cfg * inject_Z (Z.of_nat (length acc)))%Q
                 /\ (noteIntervalMin cfg * inject_Z (Z.of_nat (length acc))
                     <= 4 * (time - 3000))%Q
                 /\ (noteIntervalMin cfg * inject_Z (Z.of_nat (length acc))
                     < 4 * (87000 + noteIntervalMin cfg))%Q))
    with (fuel := fuel) (k := 0%nat) (time := 3000%Q) (nextId := nextId)
         (acc := @nil Note) (res := res) (nextId' := n')
    as (tf & Htf & H1 & _ & H3).
  { intros time i acc p k1 Ht Hp (I1 & I2 & I3).
    apply Qltb_lt in Ht.
    destruct (generatePatterns_sound _ _ _ p Hp) as (Hne & _ & _ & Hlen & _).
    assert (1 <= length p)%nat as Hlen1
      by (destruct p; [now destruct Hne|simpl; lia]).
    rewrite length_app, emit_length, Nat2Z.inj_add, inject_Z_plus.
    assert (1 <= inject_Z (Z.of_nat (length p)))%Q as Hp1
      by (change 1%Q with (inject_Z 1); rewrite <- Zle_Qle; lia).
    assert (inject_Z (Z.of_nat (length p)) <= 4)%Q as Hp4
      by (change 4%Q with (inject_Z 4); rewrite <- Zle_Qle; lia).
    destruct (Hr k1) as [Hr0 Hr1].
    set (lp := inject_Z (Z.of_nat (length p))) in *.
    set (la := inject_Z (Z.of_nat (length acc))) in *.
    set (r := rnd k1) in *.
    unfold cfg in *.
    destruct d; cbn [DIFFICULTY_SETTINGS noteIntervalMin noteIntervalMax] in *;
      repeat split; lra. }
  { exact Hgen. }
  { unfold cfg.
    destruct d; cbn [DIFFICULTY_SETTINGS noteIntervalMin noteIntervalMax length];
      change (inject_Z (Z.of_nat 0)) with 0%Q; repeat split; lra. }
  apply Qltb_ge in Htf.
  set (la := inject_Z (Z.of_nat (length res))) in *.
  assert (87000 <= noteIntervalMax cfg * la)%Q as B1 by lra.
  split; [exact B1|]. split; [exact H3|].
  assert (72 < la)%Q as L1.
  { unfold cfg in B1.
    destruct d; cbn [DIFFICULTY_SETTINGS noteIntervalMin noteIntervalMax] in B1;
      lra. }
  assert (la < 1744)%Q as L2.
  { unfold cfg in H3.
    destruct d; cbn [DIFFICULTY_SETTINGS noteIntervalMin noteIntervalMax] in H3;
      lra. }
  change 72%Q with (inject_Z 72) in L1. change 1744%Q with (inject_Z 1744) in L2.
  unfold la in L1, L2. rewrite <- Zlt_Qlt in L1, L2. lia.
Qed.

Lemma chart_density_witness :
  exists chart nextId',
    generateNotes enoughFuel Key4 normal halfDraws 0 = Some (chart, nextId')
    /\ (73 <= length chart <= 1743)%nat.
Proof.
  destruct (generateNotes enoughFuel Key4 normal halfDraws 0) as [[chart n']|] eqn:E;
    [|vm_compute in E; discriminate E].
  exists chart, n'. split; [reflexivity|].
  apply (chart_density enoughFuel Key4 normal halfDraws 0 n' chart); [|exact E].
  intros i. split; vm_compute; [discriminate|reflexivity].
Defined.
